(** * Merging two single-architecture asar archives: a model of
      [src/dist/cjs/asar-utils.js] and the properties of [mergeASARs].

    The embedding follows the source function by function.  The external
    collaborators of the source (the [asar] archive library, [fs-extra],
    [minimatch], [lipo], Node's [Buffer]) are not part of the repository;
    they are represented by a small reference model whose assumptions are
    written next to each definition. *)

From Stdlib.Strings Require Import Ascii Byte.
From stdpp Require Import gmap strings list fin_maps.


(** ** Results and errors *)

(** Which of the two scratch directories / input archives is meant. *)
Inductive Side := X64 | Arm64.

(** External operations that can fail. *)
Inductive Op :=
| OpStatFile | OpExtractFile | OpMkdtemp | OpExtractAll | OpMkdirp
| OpCopy | OpRealpath | OpLipo | OpCreatePackage | OpRemove.

(** The exceptions [mergeASARs] can end with.
    - [UnmatchedUniqueFile file archive allowList] is the [Error] thrown by
      [checkSingleArch] ("Detected unique file ... not covered by
      allowList rule");
    - [NonMachoFiles file] is "Can't reconcile two non-macho files";
    - [RangeError] is what [Buffer.readUInt32LE] throws when the four bytes
      are not inside the buffer;
    - [ExternalFailure op path] is any exception coming out of the archive
      library, the file system or the [lipo] process. *)
Inductive Error :=
| UnmatchedUniqueFile (file archive : string) (allowList : option string)
| NonMachoFiles (file : string)
| RangeError
| ExternalFailure (op : Op) (path : string).

Inductive Result (A : Type) :=
| Ok (a : A)
| Err (e : Error).
Arguments Ok {A} a.
Arguments Err {A} e.

#[global] Instance Result_ret : MRet Result := fun A a => Ok a.
#[global] Instance Result_bind : MBind Result := fun A B f r =>
  match r with
  | Ok a => f a
  | Err e => Err e
  end.

#[global] Instance Side_eq_dec : EqDecision Side.
Proof. solve_decision. Defined.
#[global] Instance Op_eq_dec : EqDecision Op.
Proof. solve_decision. Defined.
#[global] Instance Error_eq_dec : EqDecision Error.
Proof. solve_decision. Defined.
#[global] Instance Result_eq_dec {A} `{EqDecision A} : EqDecision (Result A).
Proof. solve_decision. Defined.

Definition is_ok {A} (r : Result A) : bool :=
  match r with Ok _ => true | Err _ => false end.

(** ** Buffers *)

Definition Buffer := list byte.

(** [buf.compare(other)]: lexicographic comparison of the bytes, a proper
    prefix is smaller. *)
Fixpoint Buffer_compare (a b : Buffer) : Z :=
  match a, b with
  | [], [] => 0
  | [], _ :: _ => -1
  | _ :: _, [] => 1
  | x :: a', y :: b' =>
      match (Byte.to_N x ?= Byte.to_N y)%N with
      | Lt => -1
      | Gt => 1
      | Eq => Buffer_compare a' b'
      end
  end%Z.

(** [buf.readUInt32LE(0)]: the first four bytes, least significant first;
    a [RangeError] when the buffer has fewer than four bytes. *)
Definition readUInt32LE0 (buf : Buffer) : Result N :=
  match buf with
  | b0 :: b1 :: b2 :: b3 :: _ =>
      Ok (N.lor (Byte.to_N b0)
           (N.lor (N.shiftl (Byte.to_N b1) 8)
             (N.lor (N.shiftl (Byte.to_N b2) 16)
                    (N.shiftl (Byte.to_N b3) 24))))
  | _ => Err RangeError
  end.

(** [MACHO_MAGIC] with its [has] method. *)
Definition MACHO_MAGIC : list N :=
  [ 0xfeedface; 0xcefaedfe; 0xfeedfacf; 0xcffaedfe ]%N.

Definition MACHO_MAGIC_has (n : N) : bool := existsb (N.eqb n) MACHO_MAGIC.

(** ** JavaScript [Set] of strings

    Insertion ordered, without duplicates: a list that [Set_add] only
    extends with elements it does not hold yet. *)
Definition Set_has (s : list string) (x : string) : bool := bool_decide (x ∈ s).

Definition Set_add (s : list string) (x : string) : list string :=
  if Set_has s x then s else s ++ [x].

(** [new Set(array)]. *)
Definition Set_from (l : list string) : list string := foldl Set_add [] l.

(** ** The archive capability ([asar])

    An archive is the path it is read from and its header, flattened to
    one association from relative paths to nodes; a lookup takes the
    first node stored for a path.  A header node is a directory (it has
    the key [files]) or a file (it has a size and its content); both may
    carry the key [unpacked].  Link nodes are outside the model. *)
Inductive Node :=
| FileNode (content : Buffer) (unpacked : option bool)
| DirNode (unpacked : option bool).

Record Archive := {
  asarPath : string;
  header : list (string * Node)
}.

Definition headerMap (a : Archive) : gmap string Node := list_to_map (header a).

(** [asar.listPackage]: every path of the header, with the leading
    separator the library puts in front of each. *)
Definition listPackage (a : Archive) : list string :=
  (fun e => String "/"%char e.1) <$> header a.

(** [asar.statFile]: the header node of the path; throws when the archive
    has no such path. *)
Definition statFile (a : Archive) (file : string) : Result Node :=
  match headerMap a !! file with
  | Some n => Ok n
  | None => Err (ExternalFailure OpStatFile file)
  end.

(** [asar.extractFile]: the bytes of a file; the library throws when the
    path is missing or names a directory. *)
Definition extractFile (a : Archive) (file : string) : Result Buffer :=
  match headerMap a !! file with
  | Some (FileNode content _) => Ok content
  | _ => Err (ExternalFailure OpExtractFile file)
  end.

(** ['unpacked' in stat], [stat.unpacked] and ['files' in stat]. *)
Definition has_unpacked_key (stat : Node) : bool :=
  match stat with
  | FileNode _ u | DirNode u => bool_decide (u ≠ None)
  end.

Definition unpacked_value (stat : Node) : bool :=
  match stat with
  | FileNode _ u | DirNode u => bool_decide (u = Some true)
  end.

Definition has_files_key (stat : Node) : bool :=
  match stat with
  | FileNode _ _ => false
  | DirNode _ => true
  end.

(** ** Helpers of the source *)

(** [file.replace(/^\//, '')] *)
Definition toRelativePath (file : string) : string :=
  match file with
  | String c rest => if Ascii.eqb c "/" then rest else file
  | EmptyString => file
  end.

(** [new Set(asar.listPackage(a).map(toRelativePath))] *)
Definition fileSet (a : Archive) : list string :=
  Set_from (toRelativePath <$> listPackage a).

Definition isDirectory (a : Archive) (file : string) : Result bool :=
  stat ← statFile a file; mret (has_files_key stat).

(** ** The file system under the scratch directories

    A scratch directory is the finite map from the paths below it
    (relative, as the archive lists them) to what is stored there.
    Symbolic links are outside the model, so [fs.realpath] of an existing
    path is the path itself. *)
Inductive FsNode :=
| FsFile (content : Buffer)
| FsDir.

Definition fsOfNode (n : Node) : FsNode :=
  match n with
  | FileNode content _ => FsFile content
  | DirNode _ => FsDir
  end.

Definition is_file (t : gmap string FsNode) (p : string) : bool :=
  match t !! p with
  | Some (FsFile _) => true
  | _ => false
  end.

(** The directories strictly above a relative path, outermost first:
    [ancestors "a/b/c" = ["a"; "a/b"]]. *)
Fixpoint ancestors_from (prefix rest : string) : list string :=
  match rest with
  | EmptyString => []
  | String c rest' =>
      if Ascii.eqb c "/"
      then (if bool_decide (prefix = "") then [] else [prefix])
             ++ ancestors_from (prefix +:+ "/") rest'
      else ancestors_from (prefix +:+ String c "") rest'
  end.

Definition ancestors (p : string) : list string := ancestors_from "" p.

(** [path.dirname] of a relative path; the empty string stands for the
    scratch directory itself. *)
Definition dirname (p : string) : string := default "" (last (ancestors p)).

(** [path.join(dir, file)] for a relative, normalized [file]. *)
Definition path_join (dir file : string) : string := dir +:+ "/" +:+ file.

(** What [mkdirp] does to a tree: it fails when one of the directories to
    make exists as a file, and otherwise makes those that are missing. *)
Definition mkdirs (t : gmap string FsNode) (dirs : list string)
  : option (gmap string FsNode) :=
  if existsb (is_file t) dirs then None
  else Some (foldr (fun d t' => <[d := FsDir]> t') t dirs).

(** Everything [mergeASARs] does to the outside world is recorded. *)
Inductive Event :=
| EvMkdtemp (s : Side)
| EvExtractAll (archive : string) (s : Side)
| EvMkdirp (path : string)
| EvCopy (file : string)
| EvRealpath (s : Side) (file : string)
| EvLipo (source destination : string)
| EvCreatePackage (dest : string) (unpack : list string)
| EvRemove (s : Side).

#[global] Instance Event_eq_dec : EqDecision Event.
Proof. solve_decision. Defined.

(** The outside world: the two scratch directories ([None]: the directory
    does not exist), the archive written at the output path ([None]:
    nothing was written) with the unpack list it was made with, and the
    record of the external calls so far. *)
Record World := {
  dirX64 : option (gmap string FsNode);
  dirArm64 : option (gmap string FsNode);
  output : option (gmap string FsNode * list string);
  trace : list Event
}.

Definition getDir (s : Side) (w : World) : option (gmap string FsNode) :=
  match s with X64 => dirX64 w | Arm64 => dirArm64 w end.

Definition setDir (s : Side) (t : option (gmap string FsNode)) (w : World) : World :=
  match s with
  | X64 => {| dirX64 := t; dirArm64 := dirArm64 w; output := output w; trace := trace w |}
  | Arm64 => {| dirX64 := dirX64 w; dirArm64 := t; output := output w; trace := trace w |}
  end.

Definition setOutput (o : gmap string FsNode * list string) (w : World) : World :=
  {| dirX64 := dirX64 w; dirArm64 := dirArm64 w; output := Some o; trace := trace w |}.

Definition log (e : Event) (w : World) : World :=
  {| dirX64 := dirX64 w; dirArm64 := dirArm64 w; output := output w;
     trace := trace w ++ [e] |}.

Definition initialWorld : World :=
  {| dirX64 := None; dirArm64 := None; output := None; trace := [] |}.

(** How the environment answers: the names [fs.mkdtemp] hands out, which
    external calls fail, and what [lipo] writes ([None]: it exits with an
    error). *)
Record Env := {
  tmpName : Side → string;
  mkdtemp_fails : Side → bool;
  extractAll_fails : Side → bool;
  mkdirp_fails : string → bool;
  copy_fails : string → bool;
  realpath_fails : Side → string → bool;
  lipo_run : Buffer → Buffer → option Buffer;
  createPackage_fails : bool;
  remove_fails : Side → bool
}.

(** Computations that act on the world and may throw; the world a throwing
    computation leaves behind is kept. *)
Definition M (A : Type) : Type := World → Result A * World.

#[global] Instance M_ret : MRet M := fun A a w => (Ok a, w).
#[global] Instance M_bind : MBind M := fun A B f m w =>
  match m w with
  | (Ok a, w') => f a w'
  | (Err e, w') => (Err e, w')
  end.

(** A computation that only reads the archives. *)
Definition liftR {A} (r : Result A) : M A := fun w => (r, w).

(** [try { body } finally { fin }]: [fin] runs whatever [body] did; when
    [fin] throws, its exception is the one that leaves the statement. *)
Definition try_finally {A} (body : M A) (fin : M unit) : M A := fun w =>
  let '(r, w1) := body w in
  match fin w1 with
  | (Ok _, w2) => (r, w2)
  | (Err e, w2) => (Err e, w2)
  end.

(** [await Promise.all([p, q])]: both calls are made before anything is
    awaited; the result is the first rejection, if any (when both reject,
    the model takes the one of [p]). *)
Definition Promise_all2 (p q : M unit) : M unit := fun w =>
  let '(r1, w1) := p w in
  let '(r2, w2) := q w1 in
  (match r1, r2 with
   | Ok _, Ok _ => Ok tt
   | Err e, _ => Err e
   | Ok _, Err e => Err e
   end, w2).

Section Source.

(** [minimatch(file, pattern, { matchBase: true })], the glob matcher. *)
Variable minimatch : string → string → bool.

Definition checkSingleArch (archive file : string) (allowList : option string)
  : Result unit :=
  match allowList with
  | None => Err (UnmatchedUniqueFile file archive allowList)
  | Some pattern =>
      if negb (minimatch file pattern)
      then Err (UnmatchedUniqueFile file archive allowList)
      else Ok tt
  end.

(** The body of [buildUnpacked]'s loop, then the loop; [unpackedFiles]
    is the set the closure writes to. *)
Definition buildUnpacked_step (a : Archive) (unpackedFiles : list string)
    (file : string) : Result (list string) :=
  stat ← statFile a file;
  if negb (has_unpacked_key stat) || negb (unpacked_value stat) then mret unpackedFiles
  else if has_files_key stat then mret unpackedFiles
  else mret (Set_add unpackedFiles file).

Fixpoint buildUnpacked (a : Archive) (fileList : list string)
    (unpackedFiles : list string) : Result (list string) :=
  match fileList with
  | [] => mret unpackedFiles
  | file :: rest =>
      unpackedFiles' ← buildUnpacked_step a unpackedFiles file;
      buildUnpacked a rest unpackedFiles'
  end.

(** Lines 83-87: the files of the x64 archive the arm64 one lacks. *)
Fixpoint checkX64Unique (x64AsarPath : string) (arm64Files : list string)
    (singleArchFiles : option string) (files : list string) : Result unit :=
  match files with
  | [] => mret tt
  | file :: rest =>
      _ ← (if negb (Set_has arm64Files file)
           then checkSingleArch x64AsarPath file singleArchFiles
           else mret tt);
      checkX64Unique x64AsarPath arm64Files singleArchFiles rest
  end.

(** Lines 88-94: the same for the arm64 archive, collecting
    [arm64Unique]. *)
Fixpoint collectArm64Unique (arm64AsarPath : string) (x64Files : list string)
    (singleArchFiles : option string) (files : list string)
    (arm64Unique : list string) : Result (list string) :=
  match files with
  | [] => mret arm64Unique
  | file :: rest =>
      if negb (Set_has x64Files file)
      then
        _ ← checkSingleArch arm64AsarPath file singleArchFiles;
        collectArm64Unique arm64AsarPath x64Files singleArchFiles rest
          (arm64Unique ++ [file])
      else
        collectArm64Unique arm64AsarPath x64Files singleArchFiles rest arm64Unique
  end.

(** Lines 99-116: one turn of the loop over the common files. *)
Definition commonBindings_step (x64 arm64 : Archive) (arm64Files : list string)
    (commonBindings : list string) (file : string) : Result (list string) :=
  if negb (Set_has arm64Files file) then mret commonBindings
  else
    dir ← isDirectory x64 file;
    if (dir : bool) then mret commonBindings
    else
      x64Content ← extractFile x64 file;
      arm64Content ← extractFile arm64 file;
      if (Buffer_compare x64Content arm64Content =? 0)%Z then mret commonBindings
      else
        magic ← readUInt32LE0 x64Content;
        if negb (MACHO_MAGIC_has magic) then Err (NonMachoFiles file)
        else mret (commonBindings ++ [file]).

Fixpoint collectCommonBindings (x64 arm64 : Archive) (arm64Files : list string)
    (files : list string) (commonBindings : list string) : Result (list string) :=
  match files with
  | [] => mret commonBindings
  | file :: rest =>
      commonBindings' ← commonBindings_step x64 arm64 arm64Files commonBindings file;
      collectCommonBindings x64 arm64 arm64Files rest commonBindings'
  end.

(** *** The external calls *)

Variable env : Env.

(** [fs.mkdtemp(path.join(os.tmpdir(), prefix))] *)
Definition mkdtemp (s : Side) : M string := fun w =>
  let w := log (EvMkdtemp s) w in
  if mkdtemp_fails env s then (Err (ExternalFailure OpMkdtemp (tmpName env s)), w)
  else (Ok (tmpName env s), setDir s (Some ∅) w).

(** [asar.extractAll(archive, dir)]: every path of the header is written
    below [dir], over what the directory holds. *)
Definition extractAll (a : Archive) (s : Side) : M unit := fun w =>
  let w := log (EvExtractAll (asarPath a) s) w in
  if extractAll_fails env s then (Err (ExternalFailure OpExtractAll (asarPath a)), w)
  else (Ok tt, setDir s (Some ((fsOfNode <$> headerMap a) ∪ default ∅ (getDir s w))) w).

(** [fs.mkdirp] of a path below the x64 directory; [dirs] are the
    directories from the scratch directory down to that path. *)
Definition mkdirp (path : string) (dirs : list string) : M unit := fun w =>
  let w := log (EvMkdirp path) w in
  if mkdirp_fails env path then (Err (ExternalFailure OpMkdirp path), w)
  else match dirX64 w ≫= (fun t => mkdirs t dirs) with
       | Some t' => (Ok tt, setDir X64 (Some t') w)
       | None => (Err (ExternalFailure OpMkdirp path), w)
       end.

(** [fs.copy(source, destination)] of a regular file from the arm64
    directory to the same relative path in the x64 directory; it fails
    when the source is missing or the destination is a directory.  The
    recursive copy of a directory is not modelled (the call fails):
    [mergeASARs] copies only paths the arm64 archive lists as files. *)
Definition copy (file : string) : M unit := fun w =>
  let w := log (EvCopy file) w in
  if copy_fails env file then (Err (ExternalFailure OpCopy file), w)
  else match dirArm64 w ≫= (fun t => t !! file), dirX64 w with
       | Some (FsFile content), Some t =>
           match t !! file with
           | Some FsDir => (Err (ExternalFailure OpCopy file), w)
           | _ => (Ok tt, setDir X64 (Some (<[file := FsFile content]> t)) w)
           end
       | _, _ => (Err (ExternalFailure OpCopy file), w)
       end.

(** [fs.realpath(path.resolve(dir, file))] *)
Definition realpath (s : Side) (file : string) : M string := fun w =>
  let w := log (EvRealpath s file) w in
  if realpath_fails env s file then (Err (ExternalFailure OpRealpath file), w)
  else match getDir s w ≫= (fun t => t !! file) with
       | Some _ => (Ok file, w)
       | None => (Err (ExternalFailure OpRealpath file), w)
       end.

(** [execFileSync(LIPO, [source, destination, '-create', '-output',
    destination])]: [source] is in the arm64 directory, [destination] in
    the x64 directory and is overwritten. *)
Definition lipo (source destination : string) : M unit := fun w =>
  let w := log (EvLipo source destination) w in
  match dirArm64 w ≫= (fun t => t !! source), dirX64 w with
  | Some (FsFile src), Some t =>
      match t !! destination with
      | Some (FsFile dst) =>
          match lipo_run env src dst with
          | Some merged => (Ok tt, setDir X64 (Some (<[destination := FsFile merged]> t)) w)
          | None => (Err (ExternalFailure OpLipo destination), w)
          end
      | _ => (Err (ExternalFailure OpLipo destination), w)
      end
  | _, _ => (Err (ExternalFailure OpLipo destination), w)
  end.

(** [asar.createPackageWithOptions(x64Dir, dest, { unpack })]: the
    archive holds the tree of the x64 directory; the brace pattern given
    as [unpack] is kept as the list of its alternatives. *)
Definition createPackageWithOptions (dest : string) (unpack : list string)
  : M unit := fun w =>
  let w := log (EvCreatePackage dest unpack) w in
  if createPackage_fails env then (Err (ExternalFailure OpCreatePackage dest), w)
  else match dirX64 w with
       | Some t => (Ok tt, setOutput (t, unpack) w)
       | None => (Err (ExternalFailure OpCreatePackage dest), w)
       end.

(** [fs.remove(dir)] *)
Definition remove (s : Side) : M unit := fun w =>
  let w := log (EvRemove s) w in
  if remove_fails env s then (Err (ExternalFailure OpRemove (tmpName env s)), w)
  else (Ok tt, setDir s None w).

(** *** The merge *)

(** Lines 127-138. *)
Fixpoint copyArm64Unique (arm64 : Archive) (arm64Unique : list string) : M unit :=
  match arm64Unique with
  | [] => mret tt
  | file :: rest =>
      dir ← liftR (isDirectory arm64 file);
      _ ← (if (dir : bool)
           then mkdirp file (ancestors file ++ [file])
           else (_ ← mkdirp (dirname file) (ancestors file); copy file));
      copyArm64Unique arm64 rest
  end.

(** Lines 139-144. *)
Fixpoint mergeBindings (commonBindings : list string) : M unit :=
  match commonBindings with
  | [] => mret tt
  | binding :: rest =>
      source ← realpath Arm64 binding;
      destination ← realpath X64 binding;
      _ ← lipo source destination;
      mergeBindings rest
  end.

Definition mergeASARs (x64 arm64 : Archive) (outputAsarPath : string)
    (singleArchFiles : option string) : M unit :=
  let x64Files := fileSet x64 in
  let arm64Files := fileSet arm64 in
  unpackedFiles ← liftR (buildUnpacked x64 x64Files []);
  unpackedFiles ← liftR (buildUnpacked arm64 arm64Files unpackedFiles);
  _ ← liftR (checkX64Unique (asarPath x64) arm64Files singleArchFiles x64Files);
  arm64Unique ← liftR (collectArm64Unique (asarPath arm64) x64Files singleArchFiles
                         arm64Files []);
  commonBindings ← liftR (collectCommonBindings x64 arm64 arm64Files x64Files []);
  x64Dir ← mkdtemp X64;
  arm64Dir ← mkdtemp Arm64;
  try_finally
    (_ ← extractAll x64 X64;
     _ ← extractAll arm64 Arm64;
     _ ← copyArm64Unique arm64 arm64Unique;
     _ ← mergeBindings commonBindings;
     let resolvedUnpack := path_join x64Dir <$> unpackedFiles in
     createPackageWithOptions outputAsarPath resolvedUnpack)
    (Promise_all2 (remove X64) (remove Arm64)).

End Source.

(** ** The reconciliation the loops compute

    The source keeps only [arm64Unique] and [commonBindings]; the other
    classes are the paths that leave the loops at lines 83-116 through the
    corresponding branch. *)

(** Line 84: in the x64 archive and not in the arm64 one. *)
Definition uniqueToA (x64 arm64 : Archive) : list string :=
  filter (fun f => Set_has (fileSet arm64) f = false) (fileSet x64).

(** Line 90. *)
Definition uniqueToB (x64 arm64 : Archive) : list string :=
  filter (fun f => Set_has (fileSet x64) f = false) (fileSet arm64).

(** Line 100: the paths the third loop does not skip at once. *)
Definition commonPaths (x64 arm64 : Archive) : list string :=
  filter (fun f => Set_has (fileSet arm64) f = true) (fileSet x64).

(** Line 104: skipped as directories. *)
Definition commonDirectories (x64 arm64 : Archive) : list string :=
  filter (fun f => isDirectory x64 f = Ok true) (commonPaths x64 arm64).

(** The outcome of line 109 for a path that reached it: [Some true] when
    the two contents compare equal, [Some false] when they differ, [None]
    when the path did not reach the comparison. *)
Definition sameContent (x64 arm64 : Archive) (f : string) : option bool :=
  match isDirectory x64 f, extractFile x64 f, extractFile arm64 f with
  | Ok false, Ok x64Content, Ok arm64Content =>
      Some (Buffer_compare x64Content arm64Content =? 0)%Z
  | _, _, _ => None
  end.

Definition identicalCommon (x64 arm64 : Archive) : list string :=
  filter (fun f => sameContent x64 arm64 f = Some true) (commonPaths x64 arm64).

Definition divergentCommon (x64 arm64 : Archive) : list string :=
  filter (fun f => sameContent x64 arm64 f = Some false) (commonPaths x64 arm64).

(** The check of line 112 on the x64 content of a path. *)
Definition x64Magic (x64 : Archive) (f : string) : Result N :=
  x64Content ← extractFile x64 f; readUInt32LE0 x64Content.

Definition recognizedMachO (x64 : Archive) (f : string) : bool :=
  match x64Magic x64 f with
  | Ok magic => MACHO_MAGIC_has magic
  | Err _ => false
  end.

(** Every common path that is a file in the x64 archive can be read from
    the arm64 archive (it is a file there too). *)
Definition commonFilesReadable (x64 arm64 : Archive) : Prop :=
  Forall (fun f => isDirectory x64 f = Ok false → is_ok (extractFile arm64 f) = true)
         (commonPaths x64 arm64).

(** A header lists above every path the directories that lead to it. *)
Definition wfArchive (a : Archive) : Prop :=
  Forall (fun f => Forall (fun d => isDirectory a d = Ok true) (ancestors f)) (fileSet a).

(** No external call fails. *)
Definition envOk (env : Env) : Prop :=
  (∀ s, mkdtemp_fails env s = false) ∧
  (∀ s, extractAll_fails env s = false) ∧
  (∀ p, mkdirp_fails env p = false) ∧
  (∀ p, copy_fails env p = false) ∧
  (∀ s p, realpath_fails env s p = false) ∧
  (∀ a b, is_Some (lipo_run env a b)) ∧
  createPackage_fails env = false ∧
  (∀ s, remove_fails env s = false).

(** The reconciliation as a value: the loops of lines 83-116 with the
    branch each path takes written down, and without the two checks that
    reject a path ([checkSingleArch], the Mach-O magic number).  It throws
    where the reads of the third loop throw. *)
Record Reconciliation := {
  rUniqueToA : list string;
  rUniqueToB : list string;
  rCommonDirectories : list string;
  rIdenticalCommon : list string;
  rDivergentCommon : list string
}.

Fixpoint reconcileCommon (x64 arm64 : Archive) (arm64Files files : list string)
    (dirs same diff : list string) : Result (list string * list string * list string) :=
  match files with
  | [] => mret (dirs, same, diff)
  | file :: rest =>
      if negb (Set_has arm64Files file)
      then reconcileCommon x64 arm64 arm64Files rest dirs same diff
      else
        dir ← isDirectory x64 file;
        if (dir : bool)
        then reconcileCommon x64 arm64 arm64Files rest (dirs ++ [file]) same diff
        else
          x64Content ← extractFile x64 file;
          arm64Content ← extractFile arm64 file;
          if (Buffer_compare x64Content arm64Content =? 0)%Z
          then reconcileCommon x64 arm64 arm64Files rest dirs (same ++ [file]) diff
          else reconcileCommon x64 arm64 arm64Files rest dirs same (diff ++ [file])
  end.

Definition reconcile (x64 arm64 : Archive) : Result Reconciliation :=
  let x64Files := fileSet x64 in
  let arm64Files := fileSet arm64 in
  let x64Unique := filter (fun f => Set_has arm64Files f = false) x64Files in
  let arm64Unique := filter (fun f => Set_has x64Files f = false) arm64Files in
  '(dirs, same, diff) ← reconcileCommon x64 arm64 arm64Files x64Files [] [] [];
  mret {| rUniqueToA := x64Unique; rUniqueToB := arm64Unique;
          rCommonDirectories := dirs; rIdenticalCommon := same;
          rDivergentCommon := diff |}.

(** What [checkSingleArch] tests: a pattern is there and matches. *)
Definition allowed (minimatch : string → string → bool) (allowList : option string)
    (file : string) : bool :=
  match allowList with
  | Some pattern => minimatch file pattern
  | None => false
  end.

(** The unique paths in the order the loops of lines 83-94 meet them, each
    with the archive it is reported for. *)
Definition uniqueScan (x64 arm64 : Archive) : list (string * string) :=
  ((fun f => (f, asarPath x64)) <$> uniqueToA x64 arm64)
  ++ ((fun f => (f, asarPath arm64)) <$> uniqueToB x64 arm64).

Definition firstUnmatched (minimatch : string → string → bool)
    (allowList : option string) (scan : list (string * string))
  : option (string * string) :=
  head (filter (fun e => allowed minimatch allowList e.1 = false) scan).

(** A file of the archive whose node says [unpacked: true]. *)
Definition isUnpackedFile (a : Archive) (f : string) : bool :=
  match headerMap a !! f with
  | Some (FileNode _ (Some true)) => true
  | _ => false
  end.

(** A path of the archive whose node says [unpacked: true], file or
    directory. *)
Definition storedUnpacked (a : Archive) (f : string) : bool :=
  match headerMap a !! f with
  | Some (FileNode _ (Some true)) | Some (DirNode (Some true)) => true
  | _ => false
  end.

(** [mergeASARs] in two parts: lines 60-116 only read the archives, lines
    120-154 work on the scratch directories. *)
Definition validate (minimatch : string → string → bool) (x64 arm64 : Archive)
    (singleArchFiles : option string)
  : Result (list string * list string * list string) :=
  let x64Files := fileSet x64 in
  let arm64Files := fileSet arm64 in
  unpackedFiles ← buildUnpacked x64 x64Files [];
  unpackedFiles ← buildUnpacked arm64 arm64Files unpackedFiles;
  _ ← checkX64Unique minimatch (asarPath x64) arm64Files singleArchFiles x64Files;
  arm64Unique ← collectArm64Unique minimatch (asarPath arm64) x64Files singleArchFiles
                  arm64Files [];
  commonBindings ← collectCommonBindings x64 arm64 arm64Files x64Files [];
  mret (unpackedFiles, arm64Unique, commonBindings).

Definition tryBody (env : Env) (x64 arm64 : Archive) (outputAsarPath x64Dir : string)
    (unpackedFiles arm64Unique commonBindings : list string) : M unit :=
  _ ← extractAll env x64 X64;
  _ ← extractAll env arm64 Arm64;
  _ ← copyArm64Unique env arm64 arm64Unique;
  _ ← mergeBindings env commonBindings;
  createPackageWithOptions env outputAsarPath (path_join x64Dir <$> unpackedFiles).

Definition cleanup (env : Env) : M unit :=
  Promise_all2 (remove env X64) (remove env Arm64).

Definition stage (env : Env) (x64 arm64 : Archive) (outputAsarPath : string)
    (unpackedFiles arm64Unique commonBindings : list string) : M unit :=
  x64Dir ← mkdtemp env X64;
  arm64Dir ← mkdtemp env Arm64;
  try_finally
    (tryBody env x64 arm64 outputAsarPath x64Dir unpackedFiles arm64Unique commonBindings)
    (cleanup env).

(** The paths [buildUnpacked] has collected after its two calls. *)
Definition unpackedSpec (x64 arm64 : Archive) (u : list string) : Prop :=
  ∀ p, p ∈ u ↔ (p ∈ fileSet x64 ∧ isUnpackedFile x64 p = true)
              ∨ (p ∈ fileSet arm64 ∧ isUnpackedFile arm64 p = true).

(** What lets the scan of lines 99-116 go past a path: when the path is
    common and a file in the x64 archive, the arm64 archive can be read
    there, and if the contents differ the x64 content starts with a
    Mach-O magic number. *)
Definition validFor (x64 arm64 : Archive) (g : string) : Prop :=
  g ∈ commonPaths x64 arm64 → isDirectory x64 g = Ok false →
  is_ok (extractFile arm64 g) = true ∧
  (g ∈ divergentCommon x64 arm64 → recognizedMachO x64 g = true).

(** The world once both scratch directories have been made. *)
Definition afterMkdtemps (w : World) : World :=
  setDir Arm64 (Some ∅) (log (EvMkdtemp Arm64)
    (setDir X64 (Some ∅) (log (EvMkdtemp X64) w))).

(** Specifications of computations: [Q] holds of the outcome, a result or
    an exception, and of the world left behind, whenever [P] holds of the
    world the computation starts in. *)
Definition hoare {A} (P : World → Prop) (m : M A) (Q : Result A → World → Prop) : Prop :=
  ∀ w, P w → Q (m w).1 (m w).2.

(** The events recorded after [before] all satisfy [Q]. *)
Definition since (before : list Event) (Q : Event → Prop) (w : World) : Prop :=
  ∃ evs, trace w = before ++ evs ∧ Forall Q evs.

(** The external calls of the two loops of the [try] block. *)
Definition copyEvent (arm64Unique : list string) (e : Event) : Prop :=
  ∃ file, file ∈ arm64Unique ∧
    (e = EvMkdirp file ∨ e = EvMkdirp (dirname file) ∨ e = EvCopy file).

Definition bindingEvent (commonBindings : list string) (e : Event) : Prop :=
  ∃ binding, binding ∈ commonBindings ∧
    (e = EvRealpath Arm64 binding ∨ e = EvRealpath X64 binding
     ∨ e = EvLipo binding binding).

(** The external calls of lines 120-154. *)
Definition stageEvent (env : Env) (x64 arm64 : Archive) (outputAsarPath : string)
    (unpackedFiles arm64Unique commonBindings : list string) (e : Event) : Prop :=
  e = EvMkdtemp X64 ∨ e = EvMkdtemp Arm64 ∨
  e = EvExtractAll (asarPath x64) X64 ∨ e = EvExtractAll (asarPath arm64) Arm64 ∨
  copyEvent arm64Unique e ∨ bindingEvent commonBindings e ∨
  e = EvCreatePackage outputAsarPath (path_join (tmpName env X64) <$> unpackedFiles) ∨
  e = EvRemove X64 ∨ e = EvRemove Arm64.

(** The x64 scratch directory exists and its tree satisfies [I]; the
    arm64 scratch directory holds the tree [tB]. *)
Definition treeState (I : gmap string FsNode → Prop) (tB : gmap string FsNode)
    (w : World) : Prop :=
  (∃ t, dirX64 w = Some t ∧ I t) ∧ dirArm64 w = Some tB.

(** The tree [asar.extractAll] writes for an archive. *)
Definition extractedTree (a : Archive) : gmap string FsNode :=
  fsOfNode <$> headerMap a.

(** Every entry of a tree comes from the x64 archive, or is missing there
    and comes from the arm64 archive, and is a directory exactly when the
    node it comes from is one. *)
Definition isFsDir (n : FsNode) : bool :=
  match n with
  | FsDir => true
  | FsFile _ => false
  end.

Definition origin (x64 arm64 : Archive) (t : gmap string FsNode) : Prop :=
  ∀ q n, t !! q = Some n →
    (∃ m, headerMap x64 !! q = Some m ∧ has_files_key m = isFsDir n) ∨
    ((q ∉ fileSet x64) ∧ ∃ m, headerMap arm64 !! q = Some m ∧ has_files_key m = isFsDir n).

(** The paths of an archive as a finite set. *)
Definition pathSet (l : list string) : gset string := list_to_set l.

(** An exception that comes out of an external call. *)
Definition external (e : Error) : Prop := ∃ op path, e = ExternalFailure op path.

(** The external calls of the loop of lines 127-138 when no call fails:
    for a directory one [mkdirp], for a file [mkdirp] of its parent and
    [copy]. *)
Definition copyCalls (arm64 : Archive) (arm64Unique : list string) : list Event :=
  arm64Unique ≫= (fun file =>
    match isDirectory arm64 file with
    | Ok true => [EvMkdirp file]
    | _ => [EvMkdirp (dirname file); EvCopy file]
    end).

(** The external calls of the loop of lines 139-144 when no call fails. *)
Definition bindingCalls (commonBindings : list string) : list Event :=
  commonBindings ≫= (fun binding =>
    [EvRealpath Arm64 binding; EvRealpath X64 binding; EvLipo binding binding]).

(** ** Sample inputs *)

(** A matcher for patterns without wildcards: with [matchBase] such a
    pattern matches the whole path or its last segment. *)
Fixpoint basename_from (acc rest : string) : string :=
  match rest with
  | EmptyString => acc
  | String c rest' =>
      if Ascii.eqb c "/" then basename_from "" rest'
      else basename_from (acc +:+ String c "") rest'
  end.

Definition basename (p : string) : string := basename_from "" p.

Definition literalMatch (file pattern : string) : bool :=
  bool_decide (file = pattern) || bool_decide (basename file = pattern).

(** An environment in which nothing fails; its [lipo] writes the two
    inputs one after the other. *)
Definition calmEnv : Env := {|
  tmpName := fun s => match s with X64 => "/tmp/x64-1" | Arm64 => "/tmp/arm64-1" end;
  mkdtemp_fails := fun _ => false;
  extractAll_fails := fun _ => false;
  mkdirp_fails := fun _ => false;
  copy_fails := fun _ => false;
  realpath_fails := fun _ _ => false;
  lipo_run := fun a b => Some (a ++ b);
  createPackage_fails := false;
  remove_fails := fun _ => false
|}.

Definition machoA : Buffer := [xce; xfa; xed; xfe; x01]%byte.
Definition machoB : Buffer := [xce; xfa; xed; xfe; x02]%byte.
Definition textA : Buffer := [x68; x69]%byte.
Definition textB : Buffer := [x79; x6f]%byte.
Definition longTextA : Buffer := [x68; x65; x6c; x6c; x6f]%byte.
Definition longTextB : Buffer := [x77; x6f; x72; x6c; x64]%byte.

(** The scenario of the specification: [a.txt] identical, [bin/native]
    differing Mach-O files, [b-only.txt] only in the arm64 archive. *)
Definition sampleX64 : Archive := {|
  asarPath := "x64.asar";
  header := [ ("a.txt", FileNode longTextA None);
              ("bin", DirNode None);
              ("bin/native", FileNode machoA (Some true)) ]
|}.

Definition sampleArm64 : Archive := {|
  asarPath := "arm64.asar";
  header := [ ("a.txt", FileNode longTextA None);
              ("bin", DirNode None);
              ("bin/native", FileNode machoB (Some true));
              ("b-only.txt", FileNode longTextB None) ]
|}.

(** [a.txt] differs and is two bytes long on both sides. *)
Definition shortX64 : Archive :=
  {| asarPath := "x64.asar"; header := [ ("a.txt", FileNode textA None) ] |}.
Definition shortArm64 : Archive :=
  {| asarPath := "arm64.asar"; header := [ ("a.txt", FileNode textB None) ] |}.

(** [a.txt] differs and is plain text of five bytes on both sides. *)
Definition plainX64 : Archive :=
  {| asarPath := "x64.asar"; header := [ ("a.txt", FileNode longTextA None) ] |}.
Definition plainArm64 : Archive :=
  {| asarPath := "arm64.asar"; header := [ ("a.txt", FileNode longTextB None) ] |}.

(** The same with a file that only the arm64 archive has. *)
Definition plainExtraArm64 : Archive := {|
  asarPath := "arm64.asar";
  header := [ ("a.txt", FileNode longTextB None); ("b-only.txt", FileNode longTextB None) ]
|}.

(** [bin/native] is a Mach-O file in the x64 archive and plain text in the
    arm64 archive. *)
Definition mixedX64 : Archive := {|
  asarPath := "x64.asar";
  header := [ ("bin", DirNode None); ("bin/native", FileNode machoA None) ]
|}.
Definition mixedArm64 : Archive := {|
  asarPath := "arm64.asar";
  header := [ ("bin", DirNode None); ("bin/native", FileNode longTextB None) ]
|}.

(** [res] is a directory in one archive and a file in the other. *)
Definition resDirX64 : Archive := {|
  asarPath := "x64.asar";
  header := [ ("res", DirNode (Some true)); ("res/icon", FileNode longTextA (Some true)) ]
|}.
Definition resFileArm64 : Archive :=
  {| asarPath := "arm64.asar"; header := [ ("res", FileNode machoB None) ] |}.
Definition resFileX64 : Archive :=
  {| asarPath := "x64.asar"; header := [ ("res", FileNode machoA None) ] |}.
Definition resDirArm64 : Archive :=
  {| asarPath := "arm64.asar"; header := [ ("res", DirNode None) ] |}.

(** An environment in which only [lipo] fails. *)
Definition lipoFailsEnv : Env := {|
  tmpName := tmpName calmEnv;
  mkdtemp_fails := fun _ => false;
  extractAll_fails := fun _ => false;
  mkdirp_fails := fun _ => false;
  copy_fails := fun _ => false;
  realpath_fails := fun _ _ => false;
  lipo_run := fun _ _ => None;
  createPackage_fails := false;
  remove_fails := fun _ => false
|}.

(** An environment in which [lipo] and the removal of the x64 scratch
    directory fail. *)
Definition stormyEnv : Env := {|
  tmpName := tmpName calmEnv;
  mkdtemp_fails := fun _ => false;
  extractAll_fails := fun _ => false;
  mkdirp_fails := fun _ => false;
  copy_fails := fun _ => false;
  realpath_fails := fun _ _ => false;
  lipo_run := fun _ _ => None;
  createPackage_fails := false;
  remove_fails := fun s => bool_decide (s = X64)
|}.

(** An environment in which the second [mkdtemp] fails. *)
Definition noSecondTmpEnv : Env := {|
  tmpName := tmpName calmEnv;
  mkdtemp_fails := fun s => bool_decide (s = Arm64);
  extractAll_fails := fun _ => false;
  mkdirp_fails := fun _ => false;
  copy_fails := fun _ => false;
  realpath_fails := fun _ _ => false;
  lipo_run := fun a b => Some (a ++ b);
  createPackage_fails := false;
  remove_fails := fun _ => false
|}.

(** The x64 sample under the path of an arm64 build. *)
Definition sampleX64Again : Archive :=
  {| asarPath := "arm64.asar"; header := header sampleX64 |}.

(** Archives with an uncovered unique file each. *)
Definition onlyX64 : Archive :=
  {| asarPath := "x64.asar"; header := [ ("x-only.txt", FileNode textA None) ] |}.
Definition onlyArm64 : Archive :=
  {| asarPath := "arm64.asar"; header := [ ("b-only.txt", FileNode textB None) ] |}.

(** * Properties *)

(** ** Buffers and sets *)

Lemma to_N_inj (x y : byte) : Byte.to_N x = Byte.to_N y → x = y.
Proof.
  intros H. pose proof (Byte.of_to_N x) as Hx. rewrite H, Byte.of_to_N in Hx.
  congruence.
Qed.

Lemma Buffer_compare_eq (a b : Buffer) : Buffer_compare a b = 0%Z ↔ a = b.
Proof.
  revert b. induction a as [|x a IH]; intros [|y b]; simpl; try easy.
  destruct (N.compare_spec (Byte.to_N x) (Byte.to_N y)) as [Heq|Hlt|Hgt].
  - apply to_N_inj in Heq as ->. rewrite IH. split; congruence.
  - split; [lia|]. intros [= -> _]. lia.
  - split; [lia|]. intros [= -> _]. lia.
Qed.

Lemma readUInt32LE0_short (buf : Buffer) :
  length buf < 4 → readUInt32LE0 buf = Err RangeError.
Proof.
  destruct buf as [|? [|? [|? [|? ?]]]]; simpl; intros; try reflexivity; lia.
Qed.

Lemma readUInt32LE0_long (buf : Buffer) :
  4 ≤ length buf → ∃ magic, readUInt32LE0 buf = Ok magic.
Proof.
  destruct buf as [|? [|? [|? [|? ?]]]]; simpl; intros; try lia; eauto.
Qed.

Lemma Set_has_true (s : list string) x : Set_has s x = true ↔ x ∈ s.
Proof. apply bool_decide_eq_true. Qed.

Lemma Set_has_false (s : list string) x : Set_has s x = false ↔ x ∉ s.
Proof. apply bool_decide_eq_false. Qed.

Lemma elem_of_Set_add (s : list string) x y : y ∈ Set_add s x ↔ y ∈ s ∨ y = x.
Proof.
  unfold Set_add. destruct (Set_has s x) eqn:E.
  - apply Set_has_true in E. set_solver.
  - set_solver.
Qed.

Lemma NoDup_Set_add (s : list string) x : NoDup s → NoDup (Set_add s x).
Proof.
  intros Hs. unfold Set_add. destruct (Set_has s x) eqn:E; [done|].
  apply Set_has_false in E. apply NoDup_app. split_and!; [done| |apply NoDup_singleton].
  set_solver.
Qed.

Lemma elem_of_foldl_Set_add (l s : list string) y :
  y ∈ foldl Set_add s l ↔ y ∈ s ∨ y ∈ l.
Proof.
  revert s. induction l as [|x l IH]; intros s; simpl.
  - set_solver.
  - rewrite IH, elem_of_Set_add. set_solver.
Qed.

Lemma NoDup_foldl_Set_add (l s : list string) : NoDup s → NoDup (foldl Set_add s l).
Proof.
  revert s. induction l as [|x l IH]; intros s Hs; simpl; [done|].
  by apply IH, NoDup_Set_add.
Qed.

Lemma elem_of_Set_from (l : list string) y : y ∈ Set_from l ↔ y ∈ l.
Proof. unfold Set_from. rewrite elem_of_foldl_Set_add. set_solver. Qed.

Lemma NoDup_Set_from (l : list string) : NoDup (Set_from l).
Proof. apply NoDup_foldl_Set_add, NoDup_nil_2. Qed.

(** ** The archive capability *)

Lemma toRelativePath_listed (p : string) : toRelativePath (String "/" p) = p.
Proof. reflexivity. Qed.

Lemma elem_of_fileSet (a : Archive) f : f ∈ fileSet a ↔ f ∈ (header a).*1.
Proof.
  unfold fileSet, listPackage. rewrite elem_of_Set_from, <- list_fmap_compose.
  assert (toRelativePath ∘ (λ e : string * Node, String "/" e.1) = fst) as ->; [|done].
  reflexivity.
Qed.

Lemma NoDup_fileSet (a : Archive) : NoDup (fileSet a).
Proof. apply NoDup_Set_from. Qed.

Lemma fileSet_lookup (a : Archive) f : f ∈ fileSet a ↔ is_Some (headerMap a !! f).
Proof.
  rewrite elem_of_fileSet. unfold headerMap.
  rewrite <- not_eq_None_Some, <- not_elem_of_list_to_map.
  destruct (decide (f ∈ (header a).*1)); naive_solver.
Qed.

Lemma statFile_listed (a : Archive) f :
  f ∈ fileSet a → ∃ stat, statFile a f = Ok stat ∧ headerMap a !! f = Some stat.
Proof.
  intros [stat Hs]%fileSet_lookup. exists stat. unfold statFile. by rewrite Hs.
Qed.

(** ** The two parts of [mergeASARs] *)

Lemma mergeASARs_unfold mm env x64 arm64 out allow w :
  mergeASARs mm env x64 arm64 out allow w =
  match validate mm x64 arm64 allow with
  | Ok (unpackedFiles, arm64Unique, commonBindings) =>
      stage env x64 arm64 out unpackedFiles arm64Unique commonBindings w
  | Err e => (Err e, w)
  end.
Proof.
  unfold mergeASARs, validate, stage, tryBody, cleanup.
  unfold mbind, M_bind, Result_bind, liftR, mret, Result_ret.
  repeat match goal with
         | |- context [match ?r with Ok _ => _ | Err _ => _ end] =>
             lazymatch r with
             | context [match _ with Ok _ => _ | Err _ => _ end] => fail
             | _ => destruct r; try reflexivity
             end
         end.
Qed.

(** ** The loops that only read the archives *)

Lemma buildUnpacked_step_spec (a : Archive) (acc : list string) f :
  f ∈ fileSet a →
  buildUnpacked_step a acc f =
    Ok (if isUnpackedFile a f then Set_add acc f else acc).
Proof.
  intros (stat & Hstat & Hlook)%statFile_listed.
  unfold buildUnpacked_step, isUnpackedFile. rewrite Hstat, Hlook. simpl.
  destruct stat as [c [[|]|]|[[|]|]]; reflexivity.
Qed.

Lemma buildUnpacked_spec (a : Archive) (l acc : list string) :
  (∀ f, f ∈ l → f ∈ fileSet a) →
  ∃ r, buildUnpacked a l acc = Ok r ∧
       ∀ p, p ∈ r ↔ p ∈ acc ∨ (p ∈ l ∧ isUnpackedFile a p = true).
Proof.
  revert acc. induction l as [|f l IH]; intros acc Hl; simpl.
  - exists acc. split; [done|]. set_solver.
  - rewrite buildUnpacked_step_spec by (apply Hl; set_solver). simpl.
    destruct (IH (if isUnpackedFile a f then Set_add acc f else acc)) as (r & -> & Hr).
    { intros g Hg. apply Hl. set_solver. }
    exists r. split; [done|]. intros p. rewrite Hr.
    destruct (isUnpackedFile a f) eqn:E.
    + rewrite elem_of_Set_add, elem_of_cons. naive_solver.
    + rewrite elem_of_cons. naive_solver congruence.
Qed.

Lemma checkSingleArch_spec mm archive file allow :
  checkSingleArch mm archive file allow =
    if allowed mm allow file then Ok tt else Err (UnmatchedUniqueFile file archive allow).
Proof.
  unfold checkSingleArch, allowed. destruct allow as [pattern|]; [|done].
  by destruct (mm file pattern).
Qed.

Lemma checkX64Unique_spec mm archive (otherFiles : list string) allow (files : list string) :
  checkX64Unique mm archive otherFiles allow files =
    match head (filter (fun f => allowed mm allow f = false)
                  (filter (fun f => Set_has otherFiles f = false) files)) with
    | Some g => Err (UnmatchedUniqueFile g archive allow)
    | None => Ok tt
    end.
Proof.
  induction files as [|f files IH]; simpl; [done|].
  rewrite (filter_cons (fun f => Set_has otherFiles f = false)).
  destruct (decide (Set_has otherFiles f = false)) as [E|E].
  - rewrite E. simpl. rewrite filter_cons, checkSingleArch_spec.
    destruct (decide (allowed mm allow f = false)) as [Ea|Ea].
    + by rewrite Ea.
    + apply not_false_iff_true in Ea. rewrite Ea. apply IH.
  - apply not_false_iff_true in E. rewrite E. apply IH.
Qed.

Lemma collectArm64Unique_spec mm archive (otherFiles : list string) allow
    (files acc : list string) :
  collectArm64Unique mm archive otherFiles allow files acc =
    match head (filter (fun f => allowed mm allow f = false)
                  (filter (fun f => Set_has otherFiles f = false) files)) with
    | Some g => Err (UnmatchedUniqueFile g archive allow)
    | None => Ok (acc ++ filter (fun f => Set_has otherFiles f = false) files)
    end.
Proof.
  revert acc. induction files as [|f files IH]; intros acc; simpl.
  - by rewrite app_nil_r.
  - rewrite (filter_cons (fun f => Set_has otherFiles f = false)).
    destruct (decide (Set_has otherFiles f = false)) as [E|E].
    + rewrite E. simpl. rewrite filter_cons, checkSingleArch_spec.
      destruct (decide (allowed mm allow f = false)) as [Ea|Ea].
      * by rewrite Ea.
      * apply not_false_iff_true in Ea. rewrite Ea. simpl. rewrite IH.
        destruct (head _); [done|]. by rewrite <- app_assoc.
    + apply not_false_iff_true in E. rewrite E. apply IH.
Qed.

Lemma filter_ext_in {A} (P Q : A → Prop) `{∀ x, Decision (P x)} `{∀ x, Decision (Q x)}
    (l : list A) :
  (∀ x, x ∈ l → P x ↔ Q x) → filter P l = filter Q l.
Proof.
  induction l as [|x l IH]; intros Hl; [done|].
  rewrite !filter_cons.
  assert (filter P l = filter Q l) as -> by (apply IH; intros; apply Hl; set_solver).
  assert (P x ↔ Q x) as Hx by (apply Hl; set_solver).
  destruct (decide (P x)), (decide (Q x)); tauto.
Qed.

Lemma isDirectory_false_extract (a : Archive) f :
  isDirectory a f = Ok false → ∃ content, extractFile a f = Ok content.
Proof.
  unfold isDirectory, statFile, extractFile.
  destruct (headerMap a !! f) as [[content u|u]|]; simpl; try discriminate.
  eauto.
Qed.

Lemma commonBindings_step_acc x64 arm64 (arm64Files cb : list string) f :
  commonBindings_step x64 arm64 arm64Files cb f =
    match commonBindings_step x64 arm64 arm64Files [] f with
    | Ok l => Ok (cb ++ l)
    | Err e => Err e
    end.
Proof.
  unfold commonBindings_step.
  destruct (Set_has arm64Files f); simpl; [|by rewrite app_nil_r].
  destruct (isDirectory x64 f) as [[|]|]; simpl; [by rewrite app_nil_r| |done].
  destruct (extractFile x64 f) as [x64Content|]; simpl; [|done].
  destruct (extractFile arm64 f) as [arm64Content|]; simpl; [|done].
  destruct (Buffer_compare x64Content arm64Content =? 0)%Z; simpl; [by rewrite app_nil_r|].
  destruct (readUInt32LE0 x64Content) as [magic|]; simpl; [|done].
  by destruct (MACHO_MAGIC_has magic).
Qed.

(** What one turn of the loop over the common files does, in terms of the
    classes of the reconciliation. *)
Lemma commonBindings_step_spec x64 arm64 f :
  commonBindings_step x64 arm64 (fileSet arm64) [] f =
    if Set_has (fileSet arm64) f then
      match isDirectory x64 f with
      | Ok true => Ok []
      | Ok false =>
          match sameContent x64 arm64 f with
          | Some true => Ok []
          | Some false =>
              match x64Magic x64 f with
              | Ok magic =>
                  if MACHO_MAGIC_has magic then Ok [f] else Err (NonMachoFiles f)
              | Err e => Err e
              end
          | None => Err (ExternalFailure OpExtractFile f)
          end
      | Err e => Err e
      end
    else Ok [].
Proof.
  unfold commonBindings_step, sameContent, x64Magic.
  destruct (Set_has (fileSet arm64) f); simpl; [|done].
  destruct (isDirectory x64 f) as [[|]|] eqn:Hd; simpl; [done| |done].
  destruct (isDirectory_false_extract _ _ Hd) as [x64Content ->]. simpl.
  unfold extractFile at 1 2.
  destruct (headerMap arm64 !! f) as [[arm64Content u|u]|]; simpl; try done.
  destruct (Buffer_compare x64Content arm64Content =? 0)%Z; simpl; [done|].
  destruct (readUInt32LE0 x64Content) as [magic|]; simpl; [|done].
  by destruct (MACHO_MAGIC_has magic).
Qed.

Lemma commonBindings_step_nil_or_one x64 arm64 (arm64Files : list string) f l :
  commonBindings_step x64 arm64 arm64Files [] f = Ok l → l = [] ∨ l = [f].
Proof.
  unfold commonBindings_step.
  destruct (Set_has arm64Files f); simpl; [|intros [= <-]; by left].
  destruct (isDirectory x64 f) as [[|]|]; simpl; [intros [= <-]; by left| |done].
  destruct (extractFile x64 f) as [x64Content|]; simpl; [|done].
  destruct (extractFile arm64 f) as [arm64Content|]; simpl; [|done].
  destruct (Buffer_compare x64Content arm64Content =? 0)%Z; simpl; [intros [= <-]; by left|].
  destruct (readUInt32LE0 x64Content) as [magic|]; simpl; [|done].
  destruct (MACHO_MAGIC_has magic); simpl; [intros [= <-]; by right|done].
Qed.

Lemma collectCommonBindings_ok x64 arm64 (arm64Files files cb : list string) :
  (∀ f, f ∈ files → is_ok (commonBindings_step x64 arm64 arm64Files [] f) = true) →
  collectCommonBindings x64 arm64 arm64Files files cb =
    Ok (cb ++ filter (fun f => commonBindings_step x64 arm64 arm64Files [] f = Ok [f]) files).
Proof.
  revert cb. induction files as [|f files IH]; intros cb Hok; simpl.
  - by rewrite app_nil_r.
  - rewrite commonBindings_step_acc.
    assert (is_ok (commonBindings_step x64 arm64 arm64Files [] f) = true) as Hf
      by (apply Hok; set_solver).
    rewrite filter_cons.
    destruct (commonBindings_step x64 arm64 arm64Files [] f) as [l|] eqn:E; [|done].
    simpl. rewrite IH by (intros; apply Hok; set_solver).
    destruct (decide (Ok l = Ok [f])) as [[= ->]|Hne].
    + by rewrite <- app_assoc.
    + destruct (commonBindings_step_nil_or_one _ _ _ _ _ E) as [->| ->]; [|done].
      by rewrite app_nil_r.
Qed.

Lemma collectCommonBindings_err x64 arm64 (arm64Files l1 l2 cb : list string) f e :
  (∀ g, g ∈ l1 → is_ok (commonBindings_step x64 arm64 arm64Files [] g) = true) →
  commonBindings_step x64 arm64 arm64Files [] f = Err e →
  collectCommonBindings x64 arm64 arm64Files (l1 ++ f :: l2) cb = Err e.
Proof.
  revert cb. induction l1 as [|g l1 IH]; intros cb Hok Hf; simpl.
  - by rewrite commonBindings_step_acc, Hf.
  - rewrite commonBindings_step_acc.
    assert (is_ok (commonBindings_step x64 arm64 arm64Files [] g) = true) as Hg
      by (apply Hok; set_solver).
    destruct (commonBindings_step x64 arm64 arm64Files [] g) as [l|]; [|done].
    simpl. apply IH; [|done]. intros; apply Hok; set_solver.
Qed.

(** ** The validation part as a whole *)

Lemma head_filter_fmap {A B} (f : A → B) (P : B → Prop) `{∀ y, Decision (P y)}
    (l : list A) :
  head (filter P (f <$> l)) = f <$> head (filter (fun x => P (f x)) l).
Proof.
  induction l as [|x l IH]; [done|].
  rewrite fmap_cons, !filter_cons. by destruct (decide (P (f x))).
Qed.

Lemma firstUnmatched_uniqueScan mm allow x64 arm64 :
  firstUnmatched mm allow (uniqueScan x64 arm64) =
    match head (filter (fun f => allowed mm allow f = false) (uniqueToA x64 arm64)) with
    | Some g => Some (g, asarPath x64)
    | None =>
        (fun g => (g, asarPath arm64)) <$>
          head (filter (fun f => allowed mm allow f = false) (uniqueToB x64 arm64))
    end.
Proof.
  unfold firstUnmatched, uniqueScan.
  rewrite filter_app, head_app.
  rewrite (head_filter_fmap (fun f => (f, asarPath x64))
             (fun e => allowed mm allow e.1 = false)).
  rewrite (head_filter_fmap (fun f => (f, asarPath arm64))
             (fun e => allowed mm allow e.1 = false)).
  simpl. by destruct (head _).
Qed.

Lemma firstUnmatched_Some mm allow scan g archive :
  firstUnmatched mm allow scan = Some (g, archive) →
  (g, archive) ∈ scan ∧ allowed mm allow g = false.
Proof.
  unfold firstUnmatched. intros Hh.
  assert ((g, archive) ∈ filter (fun e => allowed mm allow e.1 = false) scan) as Hin.
  { destruct (filter _ scan) as [|e l]; simplify_eq/=. set_solver. }
  apply list_elem_of_filter in Hin. naive_solver.
Qed.

Lemma firstUnmatched_None mm allow scan :
  firstUnmatched mm allow scan = None ↔
  ∀ e, e ∈ scan → allowed mm allow e.1 = true.
Proof.
  unfold firstUnmatched. split.
  - intros Hh e He. destruct (allowed mm allow e.1) eqn:E; [done|].
    assert (e ∈ filter (fun e => allowed mm allow e.1 = false) scan) as Hin
      by (apply list_elem_of_filter; done).
    destruct (filter _ scan); [by apply elem_of_nil in Hin|done].
  - intros Hall. destruct (filter _ scan) as [|e l] eqn:E; [done|].
    assert (e ∈ filter (fun e => allowed mm allow e.1 = false) scan) as Hin
      by (rewrite E; set_solver).
    apply list_elem_of_filter in Hin as [Hf He]. rewrite (Hall e He) in Hf. done.
Qed.

Lemma firstUnmatched_exists mm allow scan e :
  e ∈ scan → allowed mm allow e.1 = false →
  ∃ g archive, firstUnmatched mm allow scan = Some (g, archive).
Proof.
  intros He Hf. destruct (firstUnmatched mm allow scan) as [[g archive]|] eqn:E; [eauto|].
  rewrite firstUnmatched_None in E. rewrite (E e He) in Hf. done.
Qed.

Lemma validate_spec mm x64 arm64 allow :
  ∃ u, unpackedSpec x64 arm64 u ∧
    validate mm x64 arm64 allow =
      match firstUnmatched mm allow (uniqueScan x64 arm64) with
      | Some (g, archive) => Err (UnmatchedUniqueFile g archive allow)
      | None =>
          match collectCommonBindings x64 arm64 (fileSet arm64) (fileSet x64) [] with
          | Ok cb => Ok (u, uniqueToB x64 arm64, cb)
          | Err e => Err e
          end
      end.
Proof.
  destruct (buildUnpacked_spec x64 (fileSet x64) []) as (u1 & Hb1 & Hu1); [done|].
  destruct (buildUnpacked_spec arm64 (fileSet arm64) u1) as (u & Hb2 & Hu); [done|].
  exists u. split.
  { intros p. rewrite Hu, Hu1. set_solver. }
  unfold validate. rewrite Hb1. simpl. rewrite Hb2. simpl.
  rewrite checkX64Unique_spec, collectArm64Unique_spec, firstUnmatched_uniqueScan.
  fold (uniqueToA x64 arm64). fold (uniqueToB x64 arm64).
  destruct (head (filter _ (uniqueToA x64 arm64))); simpl; [done|].
  destruct (head (filter _ (uniqueToB x64 arm64))); simpl; [done|].
  by destruct (collectCommonBindings _ _ _ _ _).
Qed.

Lemma mergeASARs_validate_err mm env x64 arm64 out allow w e :
  validate mm x64 arm64 allow = Err e →
  mergeASARs mm env x64 arm64 out allow w = (Err e, w).
Proof. intros H. by rewrite mergeASARs_unfold, H. Qed.

Lemma elem_of_uniqueScan x64 arm64 f archive :
  (f, archive) ∈ uniqueScan x64 arm64 ↔
  (archive = asarPath x64 ∧ f ∈ fileSet x64 ∧ f ∉ fileSet arm64) ∨
  (archive = asarPath arm64 ∧ f ∈ fileSet arm64 ∧ f ∉ fileSet x64).
Proof.
  unfold uniqueScan, uniqueToA, uniqueToB.
  rewrite elem_of_app, !list_elem_of_fmap.
  setoid_rewrite list_elem_of_filter. setoid_rewrite Set_has_false.
  naive_solver.
Qed.

(** ** Unique files and the allow list *)



(** ** The classes of the reconciliation *)

Lemma elem_of_commonPaths x64 arm64 f :
  f ∈ commonPaths x64 arm64 ↔ f ∈ fileSet x64 ∧ f ∈ fileSet arm64.
Proof.
  unfold commonPaths. rewrite list_elem_of_filter, Set_has_true. tauto.
Qed.

Lemma elem_of_uniqueToA x64 arm64 f :
  f ∈ uniqueToA x64 arm64 ↔ f ∈ fileSet x64 ∧ f ∉ fileSet arm64.
Proof. unfold uniqueToA. rewrite list_elem_of_filter, Set_has_false. tauto. Qed.

Lemma elem_of_uniqueToB x64 arm64 f :
  f ∈ uniqueToB x64 arm64 ↔ f ∈ fileSet arm64 ∧ f ∉ fileSet x64.
Proof. unfold uniqueToB. rewrite list_elem_of_filter, Set_has_false. tauto. Qed.

Lemma elem_of_commonDirectories x64 arm64 f :
  f ∈ commonDirectories x64 arm64 ↔
  f ∈ commonPaths x64 arm64 ∧ isDirectory x64 f = Ok true.
Proof. unfold commonDirectories. rewrite list_elem_of_filter. tauto. Qed.

Lemma elem_of_identicalCommon x64 arm64 f :
  f ∈ identicalCommon x64 arm64 ↔
  f ∈ commonPaths x64 arm64 ∧ sameContent x64 arm64 f = Some true.
Proof. unfold identicalCommon. rewrite list_elem_of_filter. tauto. Qed.

Lemma elem_of_divergentCommon x64 arm64 f :
  f ∈ divergentCommon x64 arm64 ↔
  f ∈ commonPaths x64 arm64 ∧ sameContent x64 arm64 f = Some false.
Proof. unfold divergentCommon. rewrite list_elem_of_filter. tauto. Qed.

Lemma sameContent_Some x64 arm64 f b :
  sameContent x64 arm64 f = Some b →
  isDirectory x64 f = Ok false ∧
  ∃ x64Content arm64Content,
    extractFile x64 f = Ok x64Content ∧ extractFile arm64 f = Ok arm64Content ∧
    b = (Buffer_compare x64Content arm64Content =? 0)%Z.
Proof.
  unfold sameContent.
  destruct (isDirectory x64 f) as [[|]|]; try done.
  destruct (extractFile x64 f) as [x|]; try done.
  destruct (extractFile arm64 f) as [y|]; try done.
  intros [= <-]. eauto 10.
Qed.

Lemma sameContent_None x64 arm64 f :
  isDirectory x64 f = Ok false →
  sameContent x64 arm64 f = None ↔ is_ok (extractFile arm64 f) = false.
Proof.
  intros Hd. unfold sameContent. rewrite Hd.
  destruct (isDirectory_false_extract _ _ Hd) as [x ->].
  by destruct (extractFile arm64 f).
Qed.

Lemma validFor_step x64 arm64 g :
  g ∈ fileSet x64 → validFor x64 arm64 g →
  is_ok (commonBindings_step x64 arm64 (fileSet arm64) [] g) = true.
Proof.
  intros Hg Hv. rewrite commonBindings_step_spec.
  destruct (Set_has (fileSet arm64) g) eqn:Hin; [|done].
  apply Set_has_true in Hin.
  destruct (statFile_listed _ _ Hg) as (stat & Hstat & _).
  assert (isDirectory x64 g = Ok (has_files_key stat)) as Hd
    by (unfold isDirectory; by rewrite Hstat).
  rewrite Hd. destruct (has_files_key stat) eqn:Hk; [done|].
  destruct Hv as [Hread Hdiv]; [by apply elem_of_commonPaths|done|].
  destruct (sameContent x64 arm64 g) as [[|]|] eqn:Hs; [done| |].
  - assert (recognizedMachO x64 g = true) as Hr.
    { apply Hdiv, elem_of_divergentCommon. split; [by apply elem_of_commonPaths|done]. }
    unfold recognizedMachO in Hr. destruct (x64Magic x64 g); [|done]. by rewrite Hr.
  - apply sameContent_None in Hs; [congruence|done].
Qed.

Lemma collectCommonBindings_inv x64 arm64 (arm64Files files cb : list string) :
  match collectCommonBindings x64 arm64 arm64Files files cb with
  | Ok r => ∀ g, g ∈ files → is_ok (commonBindings_step x64 arm64 arm64Files [] g) = true
  | Err e => ∃ g, g ∈ files ∧ commonBindings_step x64 arm64 arm64Files [] g = Err e
  end.
Proof.
  revert cb. induction files as [|f files IH]; intros cb; simpl.
  - intros g Hg. by apply elem_of_nil in Hg.
  - rewrite commonBindings_step_acc.
    destruct (commonBindings_step x64 arm64 arm64Files [] f) as [l|e] eqn:E; simpl.
    + specialize (IH (cb ++ l)).
      destruct (collectCommonBindings _ _ _ files (cb ++ l)).
      * intros g [->|Hg]%elem_of_cons; [by rewrite E|by apply IH].
      * destruct IH as (g & Hg & He). exists g. split; [set_solver|done].
    + exists f. split; [set_solver|done].
Qed.

Lemma commonBindings_step_NonMacho x64 arm64 (arm64Files : list string) g h :
  commonBindings_step x64 arm64 arm64Files [] g = Err (NonMachoFiles h) → h = g.
Proof.
  unfold commonBindings_step, isDirectory, statFile, extractFile.
  destruct (Set_has arm64Files g); simpl; [|done].
  destruct (headerMap x64 !! g) as [[x u|u]|]; simpl; try done.
  destruct (headerMap arm64 !! g) as [[y v|v]|]; simpl; try done.
  destruct (Buffer_compare x y =? 0)%Z; simpl; [done|].
  destruct (readUInt32LE0 x) as [magic|] eqn:Hm; simpl.
  - destruct (MACHO_MAGIC_has magic); simpl; [done|]. by intros [= ->].
  - intros He. destruct x as [|? [|? [|? [|? ?]]]]; simpl in Hm; congruence.
Qed.

Lemma readUInt32LE0_ok_iff (buf : Buffer) :
  is_ok (readUInt32LE0 buf) = true ↔ 4 ≤ length buf.
Proof.
  destruct buf as [|? [|? [|? [|? ?]]]]; simpl; split; intros; try done; lia.
Qed.

Lemma divergent_step x64 arm64 f :
  f ∈ divergentCommon x64 arm64 →
  commonBindings_step x64 arm64 (fileSet arm64) [] f =
    match x64Magic x64 f with
    | Ok magic => if MACHO_MAGIC_has magic then Ok [f] else Err (NonMachoFiles f)
    | Err e => Err e
    end.
Proof.
  intros [[_ Hin]%elem_of_commonPaths Hs]%elem_of_divergentCommon.
  rewrite commonBindings_step_spec.
  apply Set_has_true in Hin. rewrite Hin.
  destruct (sameContent_Some _ _ _ _ Hs) as [-> _]. by rewrite Hs.
Qed.

Lemma validate_scan_err mm x64 arm64 allow l1 f l2 e :
  fileSet x64 = l1 ++ f :: l2 →
  firstUnmatched mm allow (uniqueScan x64 arm64) = None →
  (∀ g, g ∈ l1 → validFor x64 arm64 g) →
  commonBindings_step x64 arm64 (fileSet arm64) [] f = Err e →
  validate mm x64 arm64 allow = Err e.
Proof.
  intros Hsplit Hallowed Hl1 Hf.
  destruct (validate_spec mm x64 arm64 allow) as (u & _ & ->).
  rewrite Hallowed, Hsplit.
  rewrite (collectCommonBindings_err _ _ _ l1 l2 [] f e); [done| |done].
  intros g Hg. apply validFor_step; [|by apply Hl1].
  rewrite Hsplit. set_solver.
Qed.

(** ** Validation of the divergent files *)





(** C4, as stated, fails, in two ways.  A divergent common file of two
    bytes is no Mach-O file on either side, and [mergeASARs] ends with the
    range error of the magic read, not with the non-Mach-O error.  And
    when a unique file is not covered by the allow list, that is the error
    [mergeASARs] ends with, although a divergent common file is plain text
    on both sides. *)
Lemma C4_counterexample :
  ("a.txt" ∈ divergentCommon shortX64 shortArm64 ∧
   recognizedMachO shortX64 "a.txt" = false ∧
   recognizedMachO shortArm64 "a.txt" = false ∧
   mergeASARs literalMatch calmEnv shortX64 shortArm64 "out.asar" None initialWorld
     = (Err RangeError, initialWorld) ∧
   RangeError ≠ NonMachoFiles "a.txt") ∧
  ("a.txt" ∈ divergentCommon plainX64 plainExtraArm64 ∧
   recognizedMachO plainX64 "a.txt" = false ∧
   recognizedMachO plainExtraArm64 "a.txt" = false ∧
   mergeASARs literalMatch calmEnv plainX64 plainExtraArm64 "out.asar" None initialWorld
     = (Err (UnmatchedUniqueFile "b-only.txt" "arm64.asar" None), initialWorld)).
Proof.
  split; (split_and!; [|try reflexivity; discriminate..]);
    apply (bool_decide_unpack _); vm_compute; exact I.
Qed.

(** C4, amended: when the allow list covers every unique path and the scan
    of the common files reaches a divergent file whose x64 content has at
    least four bytes that are not a Mach-O magic number, [mergeASARs] ends
    with the non-Mach-O error naming that file, and the world is untouched:
    no scratch directory was made and nothing was extracted.  The same holds
    for every failure of the validation part. *)
Theorem C4_non_macho_divergence_aborts_before_workspace
    mm env x64 arm64 out allow w l1 f l2 magic :
  fileSet x64 = l1 ++ f :: l2 →
  firstUnmatched mm allow (uniqueScan x64 arm64) = None →
  (∀ g, g ∈ l1 → validFor x64 arm64 g) →
  f ∈ divergentCommon x64 arm64 →
  x64Magic x64 f = Ok magic →
  MACHO_MAGIC_has magic = false →
  mergeASARs mm env x64 arm64 out allow w = (Err (NonMachoFiles f), w) ∧
  (∀ e, validate mm x64 arm64 allow = Err e →
        mergeASARs mm env x64 arm64 out allow w = (Err e, w)).
Proof.
  intros Hsplit Hallowed Hl1 Hdiv Hmagic Hhas. split.
  - apply mergeASARs_validate_err.
    apply (validate_scan_err mm x64 arm64 allow l1 f l2); try done.
    rewrite divergent_step by done. by rewrite Hmagic, Hhas.
  - intros e. apply mergeASARs_validate_err.
Qed.

Lemma C4_witness :
  mergeASARs literalMatch calmEnv plainX64 plainArm64 "out.asar" None initialWorld
    = (Err (NonMachoFiles "a.txt"), initialWorld) ∧
  (∀ e, validate literalMatch plainX64 plainArm64 None = Err e →
        mergeASARs literalMatch calmEnv plainX64 plainArm64 "out.asar" None initialWorld
        = (Err e, initialWorld)).
Proof.
  apply (C4_non_macho_divergence_aborts_before_workspace literalMatch calmEnv
           plainX64 plainArm64 "out.asar" None initialWorld [] "a.txt" []
           0x6c6c6568%N).
  - reflexivity.
  - reflexivity.
  - intros g Hg. by apply elem_of_nil in Hg.
  - apply (bool_decide_unpack _). vm_compute. exact I.
  - reflexivity.
  - reflexivity.
Defined.

(** C5, as stated, fails: [bin/native] differs, its x64 content starts
    with a Mach-O magic number and its arm64 content is plain text; the
    validation accepts it as a binding to merge and [lipo] is run on it. *)
Lemma C5_counterexample :
  "bin/native" ∈ divergentCommon mixedX64 mixedArm64 ∧
  recognizedMachO mixedArm64 "bin/native" = false ∧
  validate literalMatch mixedX64 mixedArm64 None = Ok ([], [], ["bin/native"]) ∧
  (mergeASARs literalMatch calmEnv mixedX64 mixedArm64 "out.asar" None initialWorld).1
    = Ok tt ∧
  EvLipo "bin/native" "bin/native"
    ∈ trace (mergeASARs literalMatch calmEnv mixedX64 mixedArm64 "out.asar" None
               initialWorld).2.
Proof.
  split_and!; [|reflexivity|reflexivity|vm_compute; reflexivity|];
    apply (bool_decide_unpack _); vm_compute; exact I.
Qed.

(** C5, amended: for a divergent common file only the leading bytes of the
    x64 content are checked.  The file becomes a binding to merge exactly
    when the x64 content starts with a recognized magic number and is
    rejected exactly when it does not; the arm64 content plays no part. *)
Theorem C5_only_x64_magic_is_checked x64 arm64 f :
  f ∈ divergentCommon x64 arm64 →
  (∀ cb, recognizedMachO x64 f = true →
         commonBindings_step x64 arm64 (fileSet arm64) cb f = Ok (cb ++ [f])) ∧
  (∀ cb, recognizedMachO x64 f = false →
         is_ok (commonBindings_step x64 arm64 (fileSet arm64) cb f) = false) ∧
  (∀ arm64' cb, f ∈ divergentCommon x64 arm64' →
         commonBindings_step x64 arm64' (fileSet arm64') cb f =
         commonBindings_step x64 arm64 (fileSet arm64) cb f).
Proof.
  intros Hdiv. split_and!.
  - intros cb Hr. rewrite commonBindings_step_acc, divergent_step by done.
    unfold recognizedMachO in Hr. destruct (x64Magic x64 f); [|done]. by rewrite Hr.
  - intros cb Hr. rewrite commonBindings_step_acc, divergent_step by done.
    unfold recognizedMachO in Hr. destruct (x64Magic x64 f); [|done]. by rewrite Hr.
  - intros arm64' cb Hdiv'.
    rewrite (commonBindings_step_acc x64 arm64'), (commonBindings_step_acc x64 arm64).
    by rewrite !divergent_step.
Qed.

Lemma C5_witness :
  (∀ cb, recognizedMachO mixedX64 "bin/native" = true →
         commonBindings_step mixedX64 mixedArm64 (fileSet mixedArm64) cb "bin/native"
         = Ok (cb ++ ["bin/native"])) ∧
  (∀ cb, recognizedMachO mixedX64 "bin/native" = false →
         is_ok (commonBindings_step mixedX64 mixedArm64 (fileSet mixedArm64) cb "bin/native")
         = false) ∧
  (∀ arm64' cb, "bin/native" ∈ divergentCommon mixedX64 arm64' →
         commonBindings_step mixedX64 arm64' (fileSet arm64') cb "bin/native" =
         commonBindings_step mixedX64 mixedArm64 (fileSet mixedArm64) cb "bin/native").
Proof.
  apply (C5_only_x64_magic_is_checked mixedX64 mixedArm64 "bin/native").
  apply (bool_decide_unpack _). vm_compute. exact I.
Defined.

(** ** The partition *)

Lemma isDirectory_listed (a : Archive) f :
  f ∈ fileSet a → ∃ d, isDirectory a f = Ok d.
Proof.
  intros (stat & Hstat & _)%statFile_listed. unfold isDirectory. rewrite Hstat. eauto.
Qed.

Lemma common_classified x64 arm64 f :
  commonFilesReadable x64 arm64 →
  f ∈ commonPaths x64 arm64 →
  f ∈ commonDirectories x64 arm64 ∨ f ∈ identicalCommon x64 arm64
  ∨ f ∈ divergentCommon x64 arm64.
Proof.
  intros Hread Hc.
  rewrite elem_of_commonDirectories, elem_of_identicalCommon, elem_of_divergentCommon.
  pose proof Hc as [Hx _]%elem_of_commonPaths.
  destruct (isDirectory_listed _ _ Hx) as [[|] Hd]; [by left|right].
  unfold commonFilesReadable in Hread. rewrite Forall_forall in Hread.
  specialize (Hread f Hc Hd).
  destruct (sameContent x64 arm64 f) as [[|]|] eqn:Hs; [by left|by right|].
  apply sameContent_None in Hs; [congruence|done].
Qed.

(** The classes are pairwise disjoint, and disjoint from the common
    directories; when the common files can be read on both sides they
    cover, with the common directories, the paths of each archive. *)
Lemma classes_partition x64 arm64 :
  let A := pathSet (fileSet x64) in
  let B := pathSet (fileSet arm64) in
  let uA := pathSet (uniqueToA x64 arm64) in
  let uB := pathSet (uniqueToB x64 arm64) in
  let same := pathSet (identicalCommon x64 arm64) in
  let diff := pathSet (divergentCommon x64 arm64) in
  let dirs := pathSet (commonDirectories x64 arm64) in
  (uA ## uB ∧ uA ## same ∧ uA ## diff ∧ uB ## same ∧ uB ## diff ∧ same ## diff) ∧
  (dirs ## uA ∧ dirs ## uB ∧ dirs ## same ∧ dirs ## diff) ∧
  (commonFilesReadable x64 arm64 →
     uA ∪ same ∪ diff ∪ dirs = A ∧
     uB ∪ same ∪ diff ∪ dirs = B ∧
     uA ∪ uB ∪ same ∪ diff ∪ dirs = A ∪ B).
Proof.
  intros A B uA uB same diff dirs.
  assert (∀ p, p ∈ uA ↔ p ∈ fileSet x64 ∧ p ∉ fileSet arm64) as HuA.
  { intros p. unfold uA, pathSet. by rewrite elem_of_list_to_set, elem_of_uniqueToA. }
  assert (∀ p, p ∈ uB ↔ p ∈ fileSet arm64 ∧ p ∉ fileSet x64) as HuB.
  { intros p. unfold uB, pathSet. by rewrite elem_of_list_to_set, elem_of_uniqueToB. }
  assert (∀ p, p ∈ same ↔ (p ∈ fileSet x64 ∧ p ∈ fileSet arm64)
                           ∧ sameContent x64 arm64 p = Some true) as Hsame.
  { intros p. unfold same, pathSet.
    by rewrite elem_of_list_to_set, elem_of_identicalCommon, elem_of_commonPaths. }
  assert (∀ p, p ∈ diff ↔ (p ∈ fileSet x64 ∧ p ∈ fileSet arm64)
                           ∧ sameContent x64 arm64 p = Some false) as Hdiff.
  { intros p. unfold diff, pathSet.
    by rewrite elem_of_list_to_set, elem_of_divergentCommon, elem_of_commonPaths. }
  assert (∀ p, p ∈ dirs ↔ (p ∈ fileSet x64 ∧ p ∈ fileSet arm64)
                           ∧ isDirectory x64 p = Ok true) as Hdirs.
  { intros p. unfold dirs, pathSet.
    by rewrite elem_of_list_to_set, elem_of_commonDirectories, elem_of_commonPaths. }
  assert (∀ p, p ∈ A ↔ p ∈ fileSet x64) as HA.
  { intros p. unfold A, pathSet. by rewrite elem_of_list_to_set. }
  assert (∀ p, p ∈ B ↔ p ∈ fileSet arm64) as HB.
  { intros p. unfold B, pathSet. by rewrite elem_of_list_to_set. }
  assert (∀ p, sameContent x64 arm64 p = Some true → isDirectory x64 p = Ok false) as Hs1.
  { intros p Hs. by apply sameContent_Some in Hs as [? _]. }
  assert (∀ p, sameContent x64 arm64 p = Some false → isDirectory x64 p = Ok false) as Hs2.
  { intros p Hs. by apply sameContent_Some in Hs as [? _]. }
  split_and!.
  - intros p. rewrite HuA, HuB. tauto.
  - intros p. rewrite HuA, Hsame. tauto.
  - intros p. rewrite HuA, Hdiff. tauto.
  - intros p. rewrite HuB, Hsame. tauto.
  - intros p. rewrite HuB, Hdiff. tauto.
  - intros p. rewrite Hsame, Hdiff. intros [_ H1] [_ H2]. congruence.
  - intros p. rewrite Hdirs, HuA. tauto.
  - intros p. rewrite Hdirs, HuB. tauto.
  - intros p. rewrite Hdirs, Hsame. intros [_ H1] [_ H2%Hs1]. congruence.
  - intros p. rewrite Hdirs, Hdiff. intros [_ H1] [_ H2%Hs2]. congruence.
  - intros Hread.
    assert (∀ p, p ∈ fileSet x64 → p ∈ fileSet arm64 →
                 p ∈ dirs ∨ p ∈ same ∨ p ∈ diff) as Hcls.
    { intros p Hx Hy.
      destruct (common_classified x64 arm64 p Hread) as [H|[H|H]];
        [by apply elem_of_commonPaths| | |].
      - left. apply Hdirs. apply elem_of_commonDirectories in H as [_ ?]. done.
      - right; left. apply Hsame. apply elem_of_identicalCommon in H as [_ ?]. done.
      - right; right. apply Hdiff. apply elem_of_divergentCommon in H as [_ ?]. done. }
    split_and!; apply set_eq; intros p; rewrite ?elem_of_union, ?HA, ?HB.
    + split.
      * rewrite HuA, Hsame, Hdiff, Hdirs. tauto.
      * intros Hx. destruct (decide (p ∈ fileSet arm64)) as [Hy|Hy].
        -- destruct (Hcls p Hx Hy) as [?|[?|?]]; tauto.
        -- left; left; left. by apply HuA.
    + split.
      * rewrite HuB, Hsame, Hdiff, Hdirs. tauto.
      * intros Hy. destruct (decide (p ∈ fileSet x64)) as [Hx|Hx].
        -- destruct (Hcls p Hx Hy) as [?|[?|?]]; tauto.
        -- left; left; left. by apply HuB.
    + split.
      * rewrite HuA, HuB, Hsame, Hdiff, Hdirs. tauto.
      * intros [Hx|Hy].
        -- destruct (decide (p ∈ fileSet arm64)) as [Hy|Hy].
           ++ destruct (Hcls p Hx Hy) as [?|[?|?]]; tauto.
           ++ do 4 left. by apply HuA.
        -- destruct (decide (p ∈ fileSet x64)) as [Hx|Hx].
           ++ destruct (Hcls p Hx Hy) as [?|[?|?]]; tauto.
           ++ do 3 left. right. by apply HuB.
Qed.

Lemma reconcileCommon_Ok x64 arm64 (files dirs same diff d s v : list string) :
  reconcileCommon x64 arm64 (fileSet arm64) files dirs same diff = Ok (d, s, v) →
  let common := filter (fun f => Set_has (fileSet arm64) f = true) files in
  d = dirs ++ filter (fun f => isDirectory x64 f = Ok true) common ∧
  s = same ++ filter (fun f => sameContent x64 arm64 f = Some true) common ∧
  v = diff ++ filter (fun f => sameContent x64 arm64 f = Some false) common ∧
  Forall (fun f => isDirectory x64 f = Ok false → is_ok (extractFile arm64 f) = true)
         common.
Proof.
  revert dirs same diff d s v.
  induction files as [|f files IH]; intros dirs same diff d s v; simpl.
  - intros [= <- <- <-]. rewrite !app_nil_r. by split_and!.
  - rewrite (filter_cons (fun f => Set_has (fileSet arm64) f = true)).
    destruct (decide (Set_has (fileSet arm64) f = true)) as [Hin|Hin].
    2:{ apply not_true_iff_false in Hin. rewrite Hin. simpl. apply IH. }
    rewrite Hin. simpl. rewrite !filter_cons. intros Hrun.
    destruct (isDirectory x64 f) as [[|]|] eqn:Hd; simpl in Hrun; [| |done].
    { assert (sameContent x64 arm64 f = None) as Hs by (unfold sameContent; by rewrite Hd).
      rewrite Hs. apply IH in Hrun as (-> & -> & -> & HF).
      rewrite decide_True by done. rewrite !decide_False by done.
      split_and!; [by rewrite <- app_assoc|done|done|].
      apply Forall_cons. split; [intros; congruence|exact HF]. }
    rewrite decide_False by done.
    destruct (extractFile x64 f) as [x|] eqn:Hx; simpl in Hrun; [|done].
    destruct (extractFile arm64 f) as [y|] eqn:Hy; simpl in Hrun; [|done].
    assert (sameContent x64 arm64 f = Some (Buffer_compare x y =? 0)%Z) as Hs
      by (unfold sameContent; by rewrite Hd, Hx, Hy).
    rewrite Hs.
    destruct (Buffer_compare x y =? 0)%Z eqn:Hc;
      apply IH in Hrun as (-> & -> & -> & HF).
    + rewrite decide_True by done. rewrite decide_False by done.
      split_and!; [done|by rewrite <- app_assoc|done|].
      apply Forall_cons. split; [by rewrite Hy|exact HF].
    + rewrite decide_False by done. rewrite decide_True by done.
      split_and!; [done|done|by rewrite <- app_assoc|].
      apply Forall_cons. split; [by rewrite Hy|exact HF].
Qed.

Lemma reconcileCommon_total x64 arm64 (files dirs same diff : list string) :
  (∀ f, f ∈ files → f ∈ fileSet x64) →
  Forall (fun f => isDirectory x64 f = Ok false → is_ok (extractFile arm64 f) = true)
         (filter (fun f => Set_has (fileSet arm64) f = true) files) →
  is_ok (reconcileCommon x64 arm64 (fileSet arm64) files dirs same diff) = true.
Proof.
  revert dirs same diff. induction files as [|f files IH]; intros dirs same diff Hsub; simpl.
  - done.
  - rewrite filter_cons.
    assert (∀ g, g ∈ files → g ∈ fileSet x64) as Hsub' by (intros; apply Hsub; set_solver).
    destruct (decide (Set_has (fileSet arm64) f = true)) as [Hin|Hin].
    2:{ apply not_true_iff_false in Hin. rewrite Hin. simpl. by apply IH. }
    rewrite Hin. simpl. intros [Hf HF]%Forall_cons.
    destruct (isDirectory_listed x64 f) as [[|] Hd]; [apply Hsub; set_solver| |];
      rewrite Hd; simpl; [by apply IH|].
    destruct (isDirectory_false_extract _ _ Hd) as [x ->]. simpl.
    specialize (Hf Hd). destruct (extractFile arm64 f) as [y|]; [|done]. simpl.
    destruct (Buffer_compare x y =? 0)%Z; by apply IH.
Qed.

(** The value [reconcile] returns holds the classes defined above, and it
    returns one exactly when the common files can be read. *)
Lemma reconcile_Ok x64 arm64 r :
  reconcile x64 arm64 = Ok r →
  rUniqueToA r = uniqueToA x64 arm64 ∧
  rUniqueToB r = uniqueToB x64 arm64 ∧
  rCommonDirectories r = commonDirectories x64 arm64 ∧
  rIdenticalCommon r = identicalCommon x64 arm64 ∧
  rDivergentCommon r = divergentCommon x64 arm64 ∧
  commonFilesReadable x64 arm64.
Proof.
  unfold reconcile.
  destruct (reconcileCommon x64 arm64 (fileSet arm64) (fileSet x64) [] [] [])
    as [[[d s] v]|] eqn:E; simpl; [|done].
  intros [= <-]. simpl.
  apply reconcileCommon_Ok in E as (-> & -> & -> & HF). by split_and!.
Qed.

Lemma reconcile_total x64 arm64 :
  commonFilesReadable x64 arm64 → is_ok (reconcile x64 arm64) = true.
Proof.
  intros Hread. unfold reconcile.
  pose proof (reconcileCommon_total x64 arm64 (fileSet x64) [] [] []) as Ht.
  destruct (reconcileCommon x64 arm64 (fileSet arm64) (fileSet x64) [] [] [])
    as [[[d s] v]|]; [done|].
  apply Ht; done.
Qed.



(** ** Cleanup *)

Lemma mergeASARs_validate_ok mm env x64 arm64 out allow w u au cb :
  validate mm x64 arm64 allow = Ok (u, au, cb) →
  mergeASARs mm env x64 arm64 out allow w = stage env x64 arm64 out u au cb w.
Proof. intros H. by rewrite mergeASARs_unfold, H. Qed.

Lemma stage_unfold env x64 arm64 out u au cb w :
  mkdtemp_fails env X64 = false →
  mkdtemp_fails env Arm64 = false →
  stage env x64 arm64 out u au cb w =
    try_finally (tryBody env x64 arm64 out (tmpName env X64) u au cb) (cleanup env)
      (afterMkdtemps w).
Proof.
  intros H1 H2. unfold stage, mbind, M_bind, mkdtemp. by rewrite H1, H2.
Qed.

Lemma cleanup_spec env w :
  cleanup env w =
    ((if remove_fails env X64 then Err (ExternalFailure OpRemove (tmpName env X64))
      else if remove_fails env Arm64 then Err (ExternalFailure OpRemove (tmpName env Arm64))
      else Ok tt),
     let w1 := log (EvRemove X64) w in
     let w1' := if remove_fails env X64 then w1 else setDir X64 None w1 in
     let w2 := log (EvRemove Arm64) w1' in
     if remove_fails env Arm64 then w2 else setDir Arm64 None w2).
Proof.
  unfold cleanup, Promise_all2, remove.
  by destruct (remove_fails env X64), (remove_fails env Arm64).
Qed.




(** ** Rules for specifications *)

Lemma hoare_bind {A B} (P : World → Prop) (m : M A) (Q : Result A → World → Prop)
    (f : A → M B) (R : Result B → World → Prop) :
  hoare P m Q →
  (∀ a, hoare (Q (Ok a)) (f a) R) →
  (∀ e w, Q (Err e) w → R (Err e) w) →
  hoare P (m ≫= f) R.
Proof.
  intros Hm Hf He w Hw. specialize (Hm w Hw). unfold mbind, M_bind.
  destruct (m w) as [[a|e] w']; simpl in *; [by apply Hf|by apply He].
Qed.

Lemma hoare_conseq {A} (P P' : World → Prop) (m : M A) (Q Q' : Result A → World → Prop) :
  hoare P m Q → (∀ w, P' w → P w) → (∀ r w, Q r w → Q' r w) → hoare P' m Q'.
Proof. intros Hm HP HQ w Hw. apply HQ, Hm, HP, Hw. Qed.

Lemma hoare_ret {A} (P : World → Prop) (a : A) :
  hoare P (mret a) (fun r w => r = Ok a ∧ P w).
Proof. by intros w Hw. Qed.

Lemma hoare_liftR {A} (P : World → Prop) (r : Result A) :
  hoare P (liftR r) (fun r' w => r' = r ∧ P w).
Proof. by intros w Hw. Qed.

Lemma hoare_try_finally {A} (P : World → Prop) (body : M A) (fin : M unit)
    (Q : World → Prop) (R : World → Prop) :
  hoare P body (fun _ w => Q w) →
  hoare Q fin (fun _ w => R w) →
  hoare P (try_finally body fin) (fun _ w => R w).
Proof.
  intros Hb Hf w Hw. unfold try_finally. specialize (Hb w Hw).
  destruct (body w) as [r w1]. specialize (Hf w1 Hb).
  by destruct (fin w1) as [[[]|e] w2].
Qed.

(** ** The record of the external calls *)

Lemma trace_setDir s t w : trace (setDir s t w) = trace w.
Proof. by destruct s. Qed.

Lemma since_log before (Q : Event → Prop) e w :
  since before Q w → Q e → since before Q (log e w).
Proof.
  intros (evs & Ht & HQ) He. exists (evs ++ [e]). split.
  - simpl. by rewrite Ht, <- app_assoc.
  - apply Forall_app. split; [done|]. by apply Forall_singleton.
Qed.

Lemma since_same_trace before (Q : Event → Prop) w w' :
  trace w' = trace w → since before Q w → since before Q w'.
Proof. intros Ht (evs & Hw & HQ). exists evs. by rewrite Ht. Qed.

Lemma since_start (Q : Event → Prop) w : since (trace w) Q w.
Proof. exists []. by rewrite app_nil_r. Qed.

Lemma since_weaken before (Q Q' : Event → Prop) w :
  (∀ e, Q e → Q' e) → since before Q w → since before Q' w.
Proof.
  intros HQ (evs & Ht & Hevs). exists evs. split; [done|].
  eapply Forall_impl; eauto.
Qed.

Section Tracing.
Variable env : Env.
Variable before : list Event.
Variable Q : Event → Prop.

Local Ltac traced He :=
  repeat match goal with
         | |- context [if ?b then _ else _] => destruct b; simpl
         | |- context [match ?x with _ => _ end] => destruct x; simpl
         end;
  try (eapply since_same_trace; [apply trace_setDir|]);
  try (apply since_log; [assumption|exact He]).

Lemma mkdtemp_traced s :
  Q (EvMkdtemp s) →
  hoare (since before Q) (mkdtemp env s)
    (fun r w => since before Q w ∧ ∀ a, r = Ok a → a = tmpName env s).
Proof.
  intros He w Hw. unfold mkdtemp.
  destruct (mkdtemp_fails env s); simpl; (split; [|by intros a [= <-]]).
  - by apply since_log.
  - eapply since_same_trace; [apply trace_setDir|]. by apply since_log.
Qed.

Lemma extractAll_traced a s :
  Q (EvExtractAll (asarPath a) s) →
  hoare (since before Q) (extractAll env a s) (fun _ w => since before Q w).
Proof. intros He w Hw. unfold extractAll. traced He. Qed.

Lemma mkdirp_traced path dirs :
  Q (EvMkdirp path) →
  hoare (since before Q) (mkdirp env path dirs) (fun _ w => since before Q w).
Proof. intros He w Hw. unfold mkdirp. traced He. Qed.

Lemma copy_traced file :
  Q (EvCopy file) →
  hoare (since before Q) (copy env file) (fun _ w => since before Q w).
Proof. intros He w Hw. unfold copy. traced He. Qed.

Lemma realpath_traced s file :
  Q (EvRealpath s file) →
  hoare (since before Q) (realpath env s file)
    (fun r w => since before Q w ∧ ∀ a, r = Ok a → a = file).
Proof.
  intros He w Hw. unfold realpath.
  destruct (realpath_fails env s file); simpl; [split; [by apply since_log|done]|].
  destruct (_ ≫= _); simpl; (split; [by apply since_log|]); [by intros a [= <-]|done].
Qed.

Lemma lipo_traced source destination :
  Q (EvLipo source destination) →
  hoare (since before Q) (lipo env source destination) (fun _ w => since before Q w).
Proof. intros He w Hw. unfold lipo. traced He. Qed.

Lemma createPackage_traced dest unpack :
  Q (EvCreatePackage dest unpack) →
  hoare (since before Q) (createPackageWithOptions env dest unpack)
    (fun _ w => since before Q w).
Proof.
  intros He w Hw. unfold createPackageWithOptions.
  destruct (createPackage_fails env); simpl; [by apply since_log|].
  destruct (dirX64 w); simpl; by apply since_log.
Qed.

Lemma cleanup_traced :
  Q (EvRemove X64) → Q (EvRemove Arm64) →
  hoare (since before Q) (cleanup env) (fun _ w => since before Q w).
Proof.
  intros H1 H2 w (evs & Ht & HQ). exists (evs ++ [EvRemove X64; EvRemove Arm64]). split.
  - rewrite cleanup_spec.
    destruct (remove_fails env X64), (remove_fails env Arm64); simpl;
      by rewrite Ht, <- !app_assoc.
  - apply Forall_app. split; [done|]. by repeat constructor.
Qed.

Lemma copyArm64Unique_traced arm64 arm64Unique :
  (∀ e, copyEvent arm64Unique e → Q e) →
  hoare (since before Q) (copyArm64Unique env arm64 arm64Unique)
    (fun _ w => since before Q w).
Proof.
  induction arm64Unique as [|file rest IH]; intros HQ; simpl.
  { by intros w Hw. }
  assert (∀ e, copyEvent rest e → Q e) as HQ'.
  { intros e (f & Hf & He). apply HQ. exists f. split; [set_solver|done]. }
  assert (∀ e, e = EvMkdirp file ∨ e = EvMkdirp (dirname file) ∨ e = EvCopy file → Q e)
    as Hfile.
  { intros e He. apply HQ. exists file. split; [set_solver|done]. }
  eapply hoare_bind; [apply hoare_liftR| |by intros e w [_ ?]].
  intros dir. eapply hoare_bind with (Q := fun _ w => since before Q w).
  - destruct dir.
    + eapply hoare_conseq; [apply mkdirp_traced| |]; naive_solver.
    + eapply hoare_bind with (Q := fun _ w => since before Q w).
      * eapply hoare_conseq; [apply mkdirp_traced| |]; naive_solver.
      * intros _. apply copy_traced. naive_solver.
      * done.
  - intros _. by apply IH.
  - done.
Qed.

Lemma mergeBindings_traced commonBindings :
  (∀ e, bindingEvent commonBindings e → Q e) →
  hoare (since before Q) (mergeBindings env commonBindings)
    (fun _ w => since before Q w).
Proof.
  induction commonBindings as [|binding rest IH]; intros HQ; simpl.
  { by intros w Hw. }
  assert (∀ e, bindingEvent rest e → Q e) as HQ'.
  { intros e (f & Hf & He). apply HQ. exists f. split; [set_solver|done]. }
  assert (∀ e, e = EvRealpath Arm64 binding ∨ e = EvRealpath X64 binding
               ∨ e = EvLipo binding binding → Q e) as Hb.
  { intros e He. apply HQ. exists binding. split; [set_solver|done]. }
  eapply hoare_bind; [apply realpath_traced; naive_solver| |by intros e w [? _]].
  intros source.
  eapply hoare_bind with
    (Q := fun r w => (since before Q w ∧ source = binding) ∧ ∀ a, r = Ok a → a = binding).
  - intros w [Hw Hs]. split; [split|].
    + eapply (realpath_traced X64 binding); [naive_solver|done].
    + by apply Hs.
    + eapply (realpath_traced X64 binding); [naive_solver|done].
  - intros destination.
    eapply hoare_bind with (Q := fun _ w => since before Q w).
    + intros w [[Hw ->] Hd]. rewrite (Hd destination eq_refl).
      apply lipo_traced; [naive_solver|done].
    + intros _. by apply IH.
    + done.
  - by intros e w [[? _] _].
Qed.

End Tracing.

Lemma tryBody_traced env x64 arm64 out u au cb before :
  hoare (since before (stageEvent env x64 arm64 out u au cb))
    (tryBody env x64 arm64 out (tmpName env X64) u au cb)
    (fun _ w => since before (stageEvent env x64 arm64 out u au cb) w).
Proof.
  set (Q := stageEvent env x64 arm64 out u au cb).
  unfold tryBody.
  eapply hoare_bind with (Q := fun _ w => since before Q w);
    [apply extractAll_traced; unfold Q, stageEvent; tauto| |done].
  intros _. eapply hoare_bind with (Q := fun _ w => since before Q w);
    [apply extractAll_traced; unfold Q, stageEvent; tauto| |done].
  intros _. eapply hoare_bind with (Q := fun _ w => since before Q w);
    [apply copyArm64Unique_traced; unfold Q, stageEvent; tauto| |done].
  intros _. eapply hoare_bind with (Q := fun _ w => since before Q w);
    [apply mergeBindings_traced; unfold Q, stageEvent; tauto| |done].
  intros _. apply createPackage_traced. unfold Q, stageEvent. tauto.
Qed.

Lemma stage_traced env x64 arm64 out u au cb before :
  hoare (since before (stageEvent env x64 arm64 out u au cb))
    (stage env x64 arm64 out u au cb)
    (fun _ w => since before (stageEvent env x64 arm64 out u au cb) w).
Proof.
  set (Q := stageEvent env x64 arm64 out u au cb).
  unfold stage.
  eapply hoare_bind; [apply mkdtemp_traced; unfold Q, stageEvent; tauto| |by intros e w [? _]].
  intros x64Dir.
  eapply hoare_bind with
    (Q := fun _ w => since before Q w ∧ x64Dir = tmpName env X64).
  - intros w [Hw Hx]. split; [|by apply Hx].
    eapply (mkdtemp_traced env before Q Arm64); [unfold Q, stageEvent; tauto|done].
  - intros arm64Dir w [Hw ->].
    apply (hoare_try_finally (since before Q) _ _ (since before Q) (since before Q));
      [apply tryBody_traced| |done].
    apply cleanup_traced; unfold Q, stageEvent; tauto.
  - by intros e w [? _].
Qed.

(** What [validate] returns when it returns. *)
Lemma step_pushes_iff x64 arm64 f :
  is_ok (commonBindings_step x64 arm64 (fileSet arm64) [] f) = true →
  commonBindings_step x64 arm64 (fileSet arm64) [] f = Ok [f] ↔
  Set_has (fileSet arm64) f = true ∧ sameContent x64 arm64 f = Some false.
Proof.
  rewrite commonBindings_step_spec.
  destruct (Set_has (fileSet arm64) f); [|naive_solver].
  destruct (isDirectory x64 f) as [[|]|] eqn:Hd.
  - unfold sameContent. rewrite Hd. naive_solver.
  - destruct (sameContent x64 arm64 f) as [[|]|]; [naive_solver| |naive_solver].
    destruct (x64Magic x64 f) as [magic|]; [|naive_solver].
    destruct (MACHO_MAGIC_has magic); naive_solver.
  - naive_solver.
Qed.

Lemma step_ok_validFor x64 arm64 f :
  is_ok (commonBindings_step x64 arm64 (fileSet arm64) [] f) = true →
  validFor x64 arm64 f.
Proof.
  rewrite commonBindings_step_spec. intros Hok [_ Hin]%elem_of_commonPaths Hd.
  apply Set_has_true in Hin. rewrite Hin, Hd in Hok.
  destruct (sameContent x64 arm64 f) as [[|]|] eqn:Hs; [| |done].
  - pose proof Hs as (_ & x & y & _ & -> & _)%sameContent_Some. split; [done|].
    intros [_ ?]%elem_of_divergentCommon. congruence.
  - pose proof Hs as (_ & x & y & _ & -> & _)%sameContent_Some. split; [done|].
    intros _. unfold recognizedMachO. destruct (x64Magic x64 f) as [magic|]; [|done].
    by destruct (MACHO_MAGIC_has magic).
Qed.

Lemma validate_Ok mm x64 arm64 allow u au cb :
  validate mm x64 arm64 allow = Ok (u, au, cb) →
  unpackedSpec x64 arm64 u ∧
  au = uniqueToB x64 arm64 ∧
  cb = divergentCommon x64 arm64 ∧
  firstUnmatched mm allow (uniqueScan x64 arm64) = None ∧
  (∀ f, f ∈ fileSet x64 → validFor x64 arm64 f).
Proof.
  intros Hv. destruct (validate_spec mm x64 arm64 allow) as (u' & Hu & Hv').
  rewrite Hv in Hv'.
  destruct (firstUnmatched mm allow (uniqueScan x64 arm64)) as [[??]|]; [done|].
  pose proof (collectCommonBindings_inv x64 arm64 (fileSet arm64) (fileSet x64) []) as Hinv.
  destruct (collectCommonBindings x64 arm64 (fileSet arm64) (fileSet x64) [])
    as [cb'|] eqn:Hcb; [|done].
  rewrite collectCommonBindings_ok in Hcb by done. simplify_eq/=.
  split_and!; try done.
  - unfold divergentCommon, commonPaths. rewrite list_filter_filter.
    apply filter_ext_in. intros f Hf. rewrite step_pushes_iff by (by apply Hinv). tauto.
  - intros f Hf. by apply step_ok_validFor, Hinv.
Qed.

Lemma validate_total mm x64 arm64 allow :
  firstUnmatched mm allow (uniqueScan x64 arm64) = None →
  (∀ f, f ∈ fileSet x64 → validFor x64 arm64 f) →
  ∃ u, validate mm x64 arm64 allow = Ok (u, uniqueToB x64 arm64, divergentCommon x64 arm64).
Proof.
  intros Hallowed Hvalid. destruct (validate_spec mm x64 arm64 allow) as (u & Hu & Hv).
  rewrite Hallowed in Hv.
  assert (∀ f, f ∈ fileSet x64 →
               is_ok (commonBindings_step x64 arm64 (fileSet arm64) [] f) = true) as Hok.
  { intros f Hf. by apply validFor_step, Hvalid. }
  rewrite collectCommonBindings_ok in Hv by done. simpl in Hv.
  exists u. rewrite Hv. do 3 f_equal.
  unfold divergentCommon, commonPaths. rewrite list_filter_filter.
  apply filter_ext_in. intros f Hf. rewrite step_pushes_iff by (by apply Hok). tauto.
Qed.

(** Every external call of [mergeASARs] is one of those of lines 120-154,
    made with the lists the validation computed. *)
Lemma mergeASARs_traced mm env x64 arm64 out allow w :
  (∃ e, validate mm x64 arm64 allow = Err e ∧
        mergeASARs mm env x64 arm64 out allow w = (Err e, w)) ∨
  (∃ u, validate mm x64 arm64 allow
          = Ok (u, uniqueToB x64 arm64, divergentCommon x64 arm64) ∧
        unpackedSpec x64 arm64 u ∧
        since (trace w)
          (stageEvent env x64 arm64 out u (uniqueToB x64 arm64) (divergentCommon x64 arm64))
          (mergeASARs mm env x64 arm64 out allow w).2).
Proof.
  destruct (validate mm x64 arm64 allow) as [[[u au] cb]|e] eqn:Hv.
  - right. pose proof (validate_Ok _ _ _ _ _ _ _ Hv) as (Hu & -> & -> & _).
    exists u. split_and!; [done|done|].
    rewrite (mergeASARs_validate_ok _ _ _ _ _ _ _ _ _ _ Hv).
    apply stage_traced, since_start.
  - left. exists e. split; [done|]. by apply mergeASARs_validate_err.
Qed.

(** ** The trees of the scratch directories *)

Lemma lookup_make_dirs (t : gmap string FsNode) (dirs : list string) k :
  foldr (fun d t' => <[d := FsDir]> t') t dirs !! k =
    if bool_decide (k ∈ dirs) then Some FsDir else t !! k.
Proof.
  induction dirs as [|d dirs IH].
  - by rewrite bool_decide_eq_false_2 by apply not_elem_of_nil.
  - cbn [foldr]. destruct (decide (d = k)) as [->|Hne].
    + rewrite lookup_insert_eq. by rewrite bool_decide_eq_true_2 by set_solver.
    + rewrite lookup_insert_ne by done. rewrite IH.
      destruct (decide (k ∈ dirs)) as [Hin|Hin].
      * by rewrite !bool_decide_eq_true_2 by set_solver.
      * by rewrite !bool_decide_eq_false_2 by set_solver.
Qed.

Lemma mkdirs_Some (t t' : gmap string FsNode) (dirs : list string) :
  mkdirs t dirs = Some t' ↔
  (∀ d, d ∈ dirs → is_file t d = false) ∧
  t' = foldr (fun d t' => <[d := FsDir]> t') t dirs.
Proof.
  unfold mkdirs. destruct (existsb (is_file t) dirs) eqn:E.
  - split; [done|]. intros [Hall _].
    apply existsb_exists in E as (d & Hd & Hf).
    apply list_elem_of_In in Hd. rewrite (Hall d Hd) in Hf. done.
  - split.
    + intros [= <-]. split; [|done]. intros d Hd.
      destruct (is_file t d) eqn:Hf; [|done].
      assert (existsb (is_file t) dirs = true); [|congruence].
      apply existsb_exists. exists d. split; [by apply list_elem_of_In|done].
    + by intros [_ ->].
Qed.

Lemma mkdirs_lookup (t t' : gmap string FsNode) (dirs : list string) k :
  mkdirs t dirs = Some t' →
  t' !! k = if bool_decide (k ∈ dirs) then Some FsDir else t !! k.
Proof. intros [_ ->]%mkdirs_Some. apply lookup_make_dirs. Qed.

Lemma mkdirs_keeps_file (t t' : gmap string FsNode) (dirs : list string) k c :
  mkdirs t dirs = Some t' → t !! k = Some (FsFile c) → t' !! k = Some (FsFile c).
Proof.
  intros Hm Hk. rewrite (mkdirs_lookup _ _ _ _ Hm).
  apply mkdirs_Some in Hm as [Hall _].
  destruct (decide (k ∈ dirs)) as [Hin|Hin].
  - specialize (Hall k Hin). unfold is_file in Hall. by rewrite Hk in Hall.
  - by rewrite bool_decide_eq_false_2.
Qed.

Lemma mkdirs_keeps_present (t t' : gmap string FsNode) (dirs : list string) k :
  mkdirs t dirs = Some t' → is_Some (t !! k) → is_Some (t' !! k).
Proof.
  intros Hm Hk. rewrite (mkdirs_lookup _ _ _ _ Hm). by destruct (bool_decide _).
Qed.

Lemma mkdirs_makes (t t' : gmap string FsNode) (dirs : list string) k :
  mkdirs t dirs = Some t' → k ∈ dirs → t' !! k = Some FsDir.
Proof.
  intros Hm Hk. rewrite (mkdirs_lookup _ _ _ _ Hm). by rewrite bool_decide_eq_true_2.
Qed.

Lemma lookup_extractedTree (a : Archive) k :
  extractedTree a !! k = fsOfNode <$> headerMap a !! k.
Proof. unfold extractedTree. apply lookup_fmap. Qed.

Section Trees.
Variable env : Env.
Variable tB : gmap string FsNode.

Lemma extractAll_X64_tree (a : Archive) :
  hoare (fun w => dirX64 w = Some ∅ ∧ dirArm64 w = Some ∅) (extractAll env a X64)
    (fun r w => r = Ok tt → dirX64 w = Some (extractedTree a) ∧ dirArm64 w = Some ∅).
Proof.
  intros w [Hx Hy]. unfold extractAll.
  destruct (extractAll_fails env X64); simpl; [done|]. intros _.
  rewrite Hx. simpl. by rewrite (right_id_L ∅ (∪)).
Qed.

Lemma extractAll_Arm64_tree (a : Archive) (tA : gmap string FsNode) :
  hoare (fun w => dirX64 w = Some tA ∧ dirArm64 w = Some ∅) (extractAll env a Arm64)
    (fun r w => r = Ok tt → dirX64 w = Some tA ∧ dirArm64 w = Some (extractedTree a)).
Proof.
  intros w [Hx Hy]. unfold extractAll.
  destruct (extractAll_fails env Arm64); simpl; [done|]. intros _.
  rewrite Hy. simpl. by rewrite (right_id_L ∅ (∪)).
Qed.

Lemma mkdirp_tree path dirs (I I' : gmap string FsNode → Prop) :
  (∀ t t', I t → mkdirs t dirs = Some t' → I' t') →
  hoare (treeState I tB) (mkdirp env path dirs)
    (fun r w => r = Ok tt → treeState I' tB w).
Proof.
  intros Hstep w [(t & Ht & HI) Hb]. unfold mkdirp.
  destruct (mkdirp_fails env path); simpl; [done|].
  rewrite Ht. simpl. destruct (mkdirs t dirs) as [t'|] eqn:Hm; simpl; [|done].
  intros _. split; [|done]. exists t'. split; [done|]. by eapply Hstep.
Qed.

Lemma copy_tree file (I I' : gmap string FsNode → Prop) :
  (∀ t content, I t → tB !! file = Some (FsFile content) → t !! file ≠ Some FsDir →
                I' (<[file := FsFile content]> t)) →
  hoare (treeState I tB) (copy env file)
    (fun r w => r = Ok tt → treeState I' tB w).
Proof.
  intros Hstep w [(t & Ht & HI) Hb]. unfold copy.
  destruct (copy_fails env file); simpl; [done|].
  rewrite Hb, Ht. simpl.
  destruct (tB !! file) as [[content|]|] eqn:Hsrc; simpl; try done.
  destruct (t !! file) as [[c'|]|] eqn:Hdst; simpl; try done; intros _;
    (split; [|done]); eexists; (split; [done|]); apply Hstep; try done; congruence.
Qed.

Lemma realpath_tree s file (P : World → Prop) :
  hoare P (realpath env s file)
    (fun r w => ∀ a, r = Ok a →
       a = file ∧ is_Some (getDir s w ≫= (fun t => t !! file)) ∧
       ∃ w0, P w0 ∧ dirX64 w = dirX64 w0 ∧ dirArm64 w = dirArm64 w0).
Proof.
  intros w Hw. unfold realpath.
  destruct (realpath_fails env s file); simpl; [done|].
  assert (getDir s (log (EvRealpath s file) w) = getDir s w) as -> by (by destruct s).
  destruct (getDir s w ≫= _) as [n|] eqn:E; simpl; [|done].
  intros a [= <-]. split_and!; [done| |by exists w].
  assert (getDir s (log (EvRealpath s file) w) = getDir s w) as -> by (by destruct s).
  by rewrite E.
Qed.

Lemma lipo_tree source destination (I I' : gmap string FsNode → Prop) :
  (∀ t src dst merged, I t → tB !! source = Some (FsFile src) →
     t !! destination = Some (FsFile dst) → lipo_run env src dst = Some merged →
     I' (<[destination := FsFile merged]> t)) →
  hoare (treeState I tB) (lipo env source destination)
    (fun r w => r = Ok tt → treeState I' tB w).
Proof.
  intros Hstep w [(t & Ht & HI) Hb]. unfold lipo. simpl. rewrite Hb, Ht. simpl.
  destruct (tB !! source) as [[src|]|] eqn:Hsrc; simpl; try done.
  destruct (t !! destination) as [[dst|]|] eqn:Hdst; simpl; try done.
  destruct (lipo_run env src dst) as [merged|] eqn:Hl; simpl; [|done].
  intros _. split; [|done]. eexists. split; [done|]. by eapply Hstep.
Qed.

End Trees.

Section TreeLoops.
Variable env : Env.
Variable tB : gmap string FsNode.

Lemma treeState_same_dirs (I : gmap string FsNode → Prop) w w0 :
  treeState I tB w0 → dirX64 w = dirX64 w0 → dirArm64 w = dirArm64 w0 →
  treeState I tB w.
Proof. intros [Hx Hy] H1 H2. split; by rewrite ?H1, ?H2. Qed.

Lemma copyArm64Unique_tree arm64 (I : list string → gmap string FsNode → Prop)
    (rest processed : list string) :
  (∀ processed q t t', q ∈ rest → isDirectory arm64 q = Ok true → I processed t →
     mkdirs t (ancestors q ++ [q]) = Some t' → I (processed ++ [q]) t') →
  (∀ processed q t t1 content, q ∈ rest → isDirectory arm64 q = Ok false →
     I processed t → mkdirs t (ancestors q) = Some t1 →
     tB !! q = Some (FsFile content) → t1 !! q ≠ Some FsDir →
     I (processed ++ [q]) (<[q := FsFile content]> t1)) →
  hoare (treeState (I processed) tB) (copyArm64Unique env arm64 rest)
    (fun r w => r = Ok tt → treeState (I (processed ++ rest)) tB w).
Proof.
  revert processed. induction rest as [|q rest IH]; intros processed Hdir Hfile; simpl.
  { intros w Hw _. by rewrite app_nil_r. }
  eapply hoare_bind; [apply hoare_liftR| |done].
  intros dir. simpl.
  eapply hoare_bind with
    (Q := fun r w => r = Ok tt → treeState (I (processed ++ [q])) tB w).
  - destruct dir.
    + intros w [Hd Hw]. eapply (mkdirp_tree env tB q _ (I processed)); [|done].
      intros t t' Ht Hm. eapply Hdir; eauto. set_solver.
    + intros w [Hd Hw].
      eapply (hoare_bind _ _
                (fun r w => r = Ok tt →
                   treeState (fun t1 => ∃ t, I processed t ∧
                                mkdirs t (ancestors q) = Some t1) tB w));
        [| | |exact Hw].
      * apply mkdirp_tree. eauto.
      * intros []. intros w' Hw'. specialize (Hw' eq_refl).
        eapply (copy_tree env tB q); [|exact Hw'].
        intros t1 content (t & Ht & Hm) Hsrc Hdst. eapply Hfile; eauto. set_solver.
      * done.
  - intros []. intros w Hw. specialize (Hw eq_refl).
    replace (processed ++ q :: rest) with ((processed ++ [q]) ++ rest)
      by (by rewrite <- app_assoc).
    eapply IH; [| |exact Hw].
    + intros p' q' t t' Hq'. apply Hdir. set_solver.
    + intros p' q' t t1 c Hq'. apply Hfile. set_solver.
  - done.
Qed.

Lemma mergeBindings_tree (J : gmap string FsNode → Prop) (commonBindings : list string) :
  (∀ b t src dst merged, b ∈ commonBindings → J t →
     tB !! b = Some (FsFile src) → t !! b = Some (FsFile dst) →
     lipo_run env src dst = Some merged → J (<[b := FsFile merged]> t)) →
  hoare (treeState J tB) (mergeBindings env commonBindings)
    (fun r w => r = Ok tt → treeState J tB w).
Proof.
  induction commonBindings as [|b rest IH]; intros Hstep; simpl.
  { by intros w Hw _. }
  eapply hoare_bind; [apply realpath_tree| |done].
  intros source.
  eapply hoare_bind with
    (Q := fun r w => ∀ a, r = Ok a → a = b ∧ source = b ∧ treeState J tB w).
  - intros w Hw. destruct (Hw source eq_refl) as (-> & _ & w0 & Hw0 & Hx & Hy).
    pose proof (realpath_tree env X64 b (fun w' => w' = w) w eq_refl) as Hr.
    intros a Ha. destruct (Hr a Ha) as (-> & _ & w1 & -> & Hx' & Hy').
    split_and!; [done|done|].
    eapply treeState_same_dirs; [exact Hw0|congruence|congruence].
  - intros destination.
    eapply hoare_bind with (Q := fun r w => r = Ok tt → treeState J tB w).
    + intros w Hw. destruct (Hw destination eq_refl) as (-> & -> & Hts).
      eapply (lipo_tree env tB b b J J); [|exact Hts].
      intros t src dst merged. apply Hstep. set_solver.
    + intros []. intros w Hw. specialize (Hw eq_refl).
      eapply IH; [|exact Hw]. intros b' t src dst merged Hb'. apply Hstep. set_solver.
    + done.
  - done.
Qed.

Lemma createPackage_tree dest unpack (J : gmap string FsNode → Prop) :
  hoare (treeState J tB) (createPackageWithOptions env dest unpack)
    (fun r w => r = Ok tt → ∃ t, output w = Some (t, unpack) ∧ J t).
Proof.
  intros w [(t & Ht & HJ) _]. unfold createPackageWithOptions.
  destruct (createPackage_fails env); simpl; [done|].
  rewrite Ht. simpl. intros _. eauto.
Qed.

End TreeLoops.

(** What a successful run has written to the output path: the tree of the
    x64 scratch directory as the two loops left it. *)
Lemma tryBody_tree env x64 arm64 out x64Dir u au cb
    (I : list string → gmap string FsNode → Prop) (J : gmap string FsNode → Prop) :
  I [] (extractedTree x64) →
  (∀ processed q t t', q ∈ au → isDirectory arm64 q = Ok true → I processed t →
     mkdirs t (ancestors q ++ [q]) = Some t' → I (processed ++ [q]) t') →
  (∀ processed q t t1 content, q ∈ au → isDirectory arm64 q = Ok false →
     I processed t → mkdirs t (ancestors q) = Some t1 →
     extractedTree arm64 !! q = Some (FsFile content) → t1 !! q ≠ Some FsDir →
     I (processed ++ [q]) (<[q := FsFile content]> t1)) →
  (∀ t, I au t → J t) →
  (∀ b t src dst merged, b ∈ cb → J t →
     extractedTree arm64 !! b = Some (FsFile src) → t !! b = Some (FsFile dst) →
     lipo_run env src dst = Some merged → J (<[b := FsFile merged]> t)) →
  hoare (fun w => dirX64 w = Some ∅ ∧ dirArm64 w = Some ∅)
    (tryBody env x64 arm64 out x64Dir u au cb)
    (fun r w => r = Ok tt → ∃ t, output w = Some (t, path_join x64Dir <$> u) ∧ J t).
Proof.
  intros Hinit Hdir Hfile HIJ Hlipo. unfold tryBody.
  eapply hoare_bind; [apply extractAll_X64_tree| |done].
  intros []. eapply hoare_bind with
    (Q := fun r w => r = Ok tt → treeState (I []) (extractedTree arm64) w).
  { intros w Hw. specialize (Hw eq_refl).
    pose proof (extractAll_Arm64_tree env arm64 (extractedTree x64) w Hw) as Hpost.
    intros Hr. destruct (Hpost Hr) as [Hx Hy]. split; [eauto|done]. }
  2:{ done. }
  intros []. eapply hoare_bind with
    (Q := fun r w => r = Ok tt → treeState J (extractedTree arm64) w).
  { intros w Hw. specialize (Hw eq_refl).
    pose proof (copyArm64Unique_tree env (extractedTree arm64) arm64 I au [] Hdir Hfile w Hw)
      as Hpost.
    intros Hr. destruct (Hpost Hr) as [(t & Ht & HI) Hb]. split; [|done].
    exists t. split; [done|]. by apply HIJ. }
  2:{ done. }
  intros []. eapply hoare_bind with
    (Q := fun r w => r = Ok tt → treeState J (extractedTree arm64) w).
  { intros w Hw. specialize (Hw eq_refl).
    by apply (mergeBindings_tree env (extractedTree arm64) J cb Hlipo w). }
  2:{ done. }
  intros []. intros w Hw. specialize (Hw eq_refl).
  by apply (createPackage_tree env (extractedTree arm64) out _ J w).
Qed.

Lemma stage_Ok env x64 arm64 out u au cb w w' :
  stage env x64 arm64 out u au cb w = (Ok tt, w') →
  mkdtemp_fails env X64 = false ∧ mkdtemp_fails env Arm64 = false ∧
  (tryBody env x64 arm64 out (tmpName env X64) u au cb (afterMkdtemps w)).1 = Ok tt ∧
  output w' =
    output (tryBody env x64 arm64 out (tmpName env X64) u au cb (afterMkdtemps w)).2.
Proof.
  intros Hs.
  destruct (mkdtemp_fails env X64) eqn:H1.
  { unfold stage, mbind, M_bind, mkdtemp in Hs. by rewrite H1 in Hs. }
  destruct (mkdtemp_fails env Arm64) eqn:H2.
  { unfold stage, mbind, M_bind, mkdtemp in Hs. by rewrite H1, H2 in Hs. }
  rewrite stage_unfold in Hs by done. unfold try_finally in Hs.
  destruct (tryBody _ _ _ _ _ _ _ _ _) as [rb wb]. rewrite cleanup_spec in Hs. simpl in *.
  destruct (remove_fails env X64), (remove_fails env Arm64); by simplify_eq/=.
Qed.

Lemma mergeASARs_Ok_tree mm env x64 arm64 out allow w w'
    (I : list string → gmap string FsNode → Prop) (J : gmap string FsNode → Prop) :
  mergeASARs mm env x64 arm64 out allow w = (Ok tt, w') →
  I [] (extractedTree x64) →
  (∀ processed q t t', q ∈ uniqueToB x64 arm64 → isDirectory arm64 q = Ok true →
     I processed t → mkdirs t (ancestors q ++ [q]) = Some t' → I (processed ++ [q]) t') →
  (∀ processed q t t1 content, q ∈ uniqueToB x64 arm64 → isDirectory arm64 q = Ok false →
     I processed t → mkdirs t (ancestors q) = Some t1 →
     extractedTree arm64 !! q = Some (FsFile content) → t1 !! q ≠ Some FsDir →
     I (processed ++ [q]) (<[q := FsFile content]> t1)) →
  (∀ t, I (uniqueToB x64 arm64) t → J t) →
  (∀ b t src dst merged, b ∈ divergentCommon x64 arm64 → J t →
     extractedTree arm64 !! b = Some (FsFile src) → t !! b = Some (FsFile dst) →
     lipo_run env src dst = Some merged → J (<[b := FsFile merged]> t)) →
  ∃ u t, validate mm x64 arm64 allow
           = Ok (u, uniqueToB x64 arm64, divergentCommon x64 arm64) ∧
         unpackedSpec x64 arm64 u ∧
         output w' = Some (t, path_join (tmpName env X64) <$> u) ∧ J t.
Proof.
  intros Hrun Hinit Hdir Hfile HIJ Hlipo.
  rewrite mergeASARs_unfold in Hrun.
  destruct (validate mm x64 arm64 allow) as [[[u au] cb]|] eqn:Hv; [|done].
  pose proof (validate_Ok _ _ _ _ _ _ _ Hv) as (Hu & -> & -> & _).
  apply stage_Ok in Hrun as (_ & _ & Hbody & Hout).
  pose proof (tryBody_tree env x64 arm64 out (tmpName env X64) u _ _ I J
                Hinit Hdir Hfile HIJ Hlipo (afterMkdtemps w)) as Hpost.
  destruct Hpost as (t & Ht & HJ); [done|done|].
  exists u, t. rewrite Hout. by split_and!.
Qed.

(** ** Runs in which nothing fails *)

Section Totals.
Variable env : Env.
Hypothesis env_ok : envOk env.
Variable tB : gmap string FsNode.

Lemma mkdirp_total path dirs (I I' : gmap string FsNode → Prop) :
  (∀ t, I t → ∃ t', mkdirs t dirs = Some t' ∧ I' t') →
  hoare (treeState I tB) (mkdirp env path dirs)
    (fun r w => r = Ok tt ∧ treeState I' tB w).
Proof.
  intros Hstep w [(t & Ht & HI) Hb]. unfold mkdirp.
  destruct env_ok as (_ & _ & -> & _). simpl.
  rewrite Ht. simpl. destruct (Hstep t HI) as (t' & -> & HI'). simpl.
  split; [done|]. split; [|done]. eauto.
Qed.

Lemma copy_total file (I I' : gmap string FsNode → Prop) :
  (∀ t, I t → ∃ content, tB !! file = Some (FsFile content) ∧ t !! file ≠ Some FsDir ∧
                         I' (<[file := FsFile content]> t)) →
  hoare (treeState I tB) (copy env file)
    (fun r w => r = Ok tt ∧ treeState I' tB w).
Proof.
  intros Hstep w [(t & Ht & HI) Hb]. unfold copy.
  destruct env_ok as (_ & _ & _ & -> & _). simpl.
  rewrite Hb, Ht. simpl. destruct (Hstep t HI) as (content & -> & Hdst & HI').
  destruct (t !! file) as [[c'|]|] eqn:E; simpl; try done;
    (split; [done|]); (split; [|done]); eauto.
Qed.

Lemma realpath_total s file (I : gmap string FsNode → Prop) :
  (match s with
   | X64 => ∀ t, I t → is_Some (t !! file)
   | Arm64 => is_Some (tB !! file)
   end) →
  hoare (treeState I tB) (realpath env s file)
    (fun r w => r = Ok file ∧ treeState I tB w).
Proof.
  intros Hex w [(t & Ht & HI) Hb]. unfold realpath.
  destruct env_ok as (_ & _ & _ & _ & -> & _). simpl.
  assert (is_Some (getDir s (log (EvRealpath s file) w) ≫= (fun t => t !! file))) as [n Hn].
  { destruct s; simpl; [rewrite Ht|rewrite Hb]; simpl; auto. }
  rewrite Hn. simpl. split; [done|]. split; [|done]. eauto.
Qed.

Lemma lipo_total source destination (I I' : gmap string FsNode → Prop) :
  (∀ t, I t → ∃ src dst, tB !! source = Some (FsFile src) ∧
                         t !! destination = Some (FsFile dst) ∧
                         ∀ merged, I' (<[destination := FsFile merged]> t)) →
  hoare (treeState I tB) (lipo env source destination)
    (fun r w => r = Ok tt ∧ treeState I' tB w).
Proof.
  intros Hstep w [(t & Ht & HI) Hb]. unfold lipo. simpl. rewrite Hb, Ht. simpl.
  destruct (Hstep t HI) as (src & dst & -> & -> & HI').
  destruct env_ok as (_ & _ & _ & _ & _ & Hl & _).
  destruct (Hl src dst) as [merged ->]. simpl.
  split; [done|]. split; [|done]. eauto.
Qed.

Lemma createPackage_total dest unpack (J : gmap string FsNode → Prop) :
  hoare (treeState J tB) (createPackageWithOptions env dest unpack)
    (fun r w => r = Ok tt ∧ ∃ t, output w = Some (t, unpack) ∧ J t).
Proof.
  intros w [(t & Ht & HJ) _]. unfold createPackageWithOptions.
  destruct env_ok as (_ & _ & _ & _ & _ & _ & -> & _). simpl.
  rewrite Ht. simpl. eauto.
Qed.

Lemma copyArm64Unique_total arm64 (I : list string → gmap string FsNode → Prop)
    (rest processed : list string) :
  (∀ q, q ∈ rest → ∃ d, isDirectory arm64 q = Ok d) →
  (∀ processed q t, q ∈ rest → isDirectory arm64 q = Ok true → I processed t →
     ∃ t', mkdirs t (ancestors q ++ [q]) = Some t' ∧ I (processed ++ [q]) t') →
  (∀ processed q t, q ∈ rest → isDirectory arm64 q = Ok false → I processed t →
     ∃ t1 content, mkdirs t (ancestors q) = Some t1 ∧
       tB !! q = Some (FsFile content) ∧ t1 !! q ≠ Some FsDir ∧
       I (processed ++ [q]) (<[q := FsFile content]> t1)) →
  hoare (treeState (I processed) tB) (copyArm64Unique env arm64 rest)
    (fun r w => r = Ok tt ∧ treeState (I (processed ++ rest)) tB w).
Proof.
  revert processed.
  induction rest as [|q rest IH]; intros processed Hlisted Hdir Hfile; simpl.
  { intros w Hw. by rewrite app_nil_r. }
  destruct (Hlisted q) as [d Hd]; [set_solver|]. rewrite Hd.
  eapply hoare_bind; [apply hoare_liftR| |by intros e w [? _]].
  intros dir. simpl.
  eapply hoare_bind with
    (Q := fun r w => r = Ok tt ∧ treeState (I (processed ++ [q])) tB w).
  - intros w [[= ->] Hw]. destruct d.
    + eapply (mkdirp_total q _ (I processed)); [|done].
      intros t Ht. eapply Hdir; eauto. set_solver.
    + eapply (hoare_bind _ _
                (fun r w => r = Ok tt ∧
                   treeState (fun t1 => ∃ t, I processed t ∧
                                mkdirs t (ancestors q) = Some t1) tB w));
        [| | |exact Hw].
      * apply mkdirp_total. intros t Ht.
        destruct (Hfile processed q t) as (t1 & c & Hm & _); [set_solver|done|done|].
        eauto.
      * intros []. intros w' [_ Hw'].
        eapply (copy_total q); [|exact Hw'].
        intros t1 (t & Ht & Hm).
        destruct (Hfile processed q t) as (t1' & c & Hm' & Hsrc & Hdst & HI);
          [set_solver|done|done|].
        assert (t1' = t1) as -> by congruence. eauto.
      * by intros e w' [? _].
  - intros []. intros w [_ Hw].
    replace (processed ++ q :: rest) with ((processed ++ [q]) ++ rest)
      by (by rewrite <- app_assoc).
    eapply IH; [| | |exact Hw].
    + intros q' Hq'. apply Hlisted. set_solver.
    + intros p' q' t Hq'. apply Hdir. set_solver.
    + intros p' q' t Hq'. apply Hfile. set_solver.
  - by intros e w [? _].
Qed.

Lemma mergeBindings_total (J : gmap string FsNode → Prop) (commonBindings : list string) :
  (∀ b t, b ∈ commonBindings → J t →
     ∃ src dst, tB !! b = Some (FsFile src) ∧ t !! b = Some (FsFile dst) ∧
                ∀ merged, J (<[b := FsFile merged]> t)) →
  hoare (treeState J tB) (mergeBindings env commonBindings)
    (fun r w => r = Ok tt ∧ treeState J tB w).
Proof.
  induction commonBindings as [|b rest IH]; intros Hstep; simpl.
  { by intros w Hw. }
  assert (∀ t, J t → ∃ src dst, tB !! b = Some (FsFile src) ∧
                      t !! b = Some (FsFile dst) ∧
                      ∀ merged, J (<[b := FsFile merged]> t)) as Hb.
  { intros t Ht. apply Hstep; [set_solver|done]. }
  eapply hoare_bind with (Q := fun r w => r = Ok b ∧ treeState J tB w).
  - intros w Hw. apply (realpath_total Arm64 b J); [|done]. simpl.
    destruct Hw as [(t & _ & Ht) _]. destruct (Hb t Ht) as (src & _ & -> & _). eauto.
  - intros source.
    eapply hoare_bind with
      (Q := fun r w => r = Ok b ∧ source = b ∧ treeState J tB w).
    + intros w [[= ->] Hw].
      destruct (realpath_total X64 b J) with (w := w) as [Hr Hw']; [|done|by split_and!].
      simpl. intros t Ht. destruct (Hb t Ht) as (_ & dst & _ & -> & _). eauto.
    + intros destination.
      eapply hoare_bind with (Q := fun r w => r = Ok tt ∧ treeState J tB w).
      * intros w ([= ->] & -> & Hw). by apply (lipo_total b b J J).
      * intros []. intros w [_ Hw]. eapply IH; [|exact Hw].
        intros b' t Hb'. apply Hstep. set_solver.
      * by intros e w [? _].
    + by intros e w [? _].
  - by intros e w [? _].
Qed.

End Totals.

Lemma tryBody_total env x64 arm64 out x64Dir u au cb
    (I : list string → gmap string FsNode → Prop) (J : gmap string FsNode → Prop) :
  envOk env →
  I [] (extractedTree x64) →
  (∀ q, q ∈ au → ∃ d, isDirectory arm64 q = Ok d) →
  (∀ processed q t, q ∈ au → isDirectory arm64 q = Ok true → I processed t →
     ∃ t', mkdirs t (ancestors q ++ [q]) = Some t' ∧ I (processed ++ [q]) t') →
  (∀ processed q t, q ∈ au → isDirectory arm64 q = Ok false → I processed t →
     ∃ t1 content, mkdirs t (ancestors q) = Some t1 ∧
       extractedTree arm64 !! q = Some (FsFile content) ∧ t1 !! q ≠ Some FsDir ∧
       I (processed ++ [q]) (<[q := FsFile content]> t1)) →
  (∀ t, I au t → J t) →
  (∀ b t, b ∈ cb → J t →
     ∃ src dst, extractedTree arm64 !! b = Some (FsFile src) ∧
                t !! b = Some (FsFile dst) ∧
                ∀ merged, J (<[b := FsFile merged]> t)) →
  hoare (fun w => dirX64 w = Some ∅ ∧ dirArm64 w = Some ∅)
    (tryBody env x64 arm64 out x64Dir u au cb)
    (fun r w => r = Ok tt ∧ ∃ t, output w = Some (t, path_join x64Dir <$> u) ∧ J t).
Proof.
  intros Henv Hinit Hlisted Hdir Hfile HIJ Hlipo. unfold tryBody.
  pose proof Henv as (_ & Hex & _).
  eapply hoare_bind with
    (Q := fun r w => r = Ok tt ∧ dirX64 w = Some (extractedTree x64) ∧ dirArm64 w = Some ∅).
  { intros w Hw. pose proof (extractAll_X64_tree env x64 w Hw) as Hpost.
    unfold extractAll in *. rewrite Hex in *. simpl in *. split; [done|]. by apply Hpost. }
  2:{ by intros e w [? _]. }
  intros []. eapply hoare_bind with
    (Q := fun r w => r = Ok tt ∧ treeState (I []) (extractedTree arm64) w).
  { intros w [_ Hw].
    pose proof (extractAll_Arm64_tree env arm64 (extractedTree x64) w Hw) as Hpost.
    unfold extractAll in *. rewrite Hex in *. simpl in *. split; [done|].
    destruct Hpost as [Hx Hy]; [done|]. split; [eauto|done]. }
  2:{ by intros e w [? _]. }
  intros []. eapply hoare_bind with
    (Q := fun r w => r = Ok tt ∧ treeState J (extractedTree arm64) w).
  { intros w [_ Hw].
    pose proof (copyArm64Unique_total env Henv (extractedTree arm64) arm64 I au []
                  Hlisted Hdir Hfile w Hw) as [Hr [(t & Ht & HI) Hb]].
    split; [done|]. split; [|done]. exists t. split; [done|]. by apply HIJ. }
  2:{ by intros e w [? _]. }
  intros []. eapply hoare_bind with
    (Q := fun r w => r = Ok tt ∧ treeState J (extractedTree arm64) w).
  { intros w [_ Hw].
    by apply (mergeBindings_total env Henv (extractedTree arm64) J cb Hlipo w). }
  2:{ by intros e w [? _]. }
  intros []. intros w [_ Hw].
  by apply (createPackage_total env Henv (extractedTree arm64) out _ J w).
Qed.

Lemma stage_total env x64 arm64 out u au cb w (J : gmap string FsNode → Prop) :
  envOk env →
  hoare (fun w => dirX64 w = Some ∅ ∧ dirArm64 w = Some ∅)
    (tryBody env x64 arm64 out (tmpName env X64) u au cb)
    (fun r w => r = Ok tt ∧ ∃ t, output w = Some (t, path_join (tmpName env X64) <$> u)
                                  ∧ J t) →
  ∃ w' t, stage env x64 arm64 out u au cb w = (Ok tt, w') ∧
          output w' = Some (t, path_join (tmpName env X64) <$> u) ∧ J t.
Proof.
  intros Henv Hbody. pose proof Henv as (Hmk & _ & _ & _ & _ & _ & _ & Hrm).
  rewrite stage_unfold by done. unfold try_finally.
  destruct (Hbody (afterMkdtemps w)) as [Hr (t & Hout & HJ)]; [done|].
  destruct (tryBody _ _ _ _ _ _ _ _ _) as [rb wb]. simpl in *. subst rb.
  rewrite cleanup_spec, !Hrm. simpl. eauto.
Qed.

(** ** Identical files *)

Lemma identical_contents x64 arm64 p :
  p ∈ identicalCommon x64 arm64 →
  ∃ content u v, headerMap x64 !! p = Some (FileNode content u) ∧
                 headerMap arm64 !! p = Some (FileNode content v) ∧
                 p ∈ fileSet x64 ∧ p ∈ fileSet arm64.
Proof.
  intros [[Hx Hy]%elem_of_commonPaths Hs]%elem_of_identicalCommon.
  apply sameContent_Some in Hs as (_ & x & y & Hex & Hey & Hc).
  symmetry in Hc. apply Z.eqb_eq, Buffer_compare_eq in Hc as ->.
  unfold extractFile in Hex, Hey.
  destruct (headerMap x64 !! p) as [[cx u|]|]; simplify_eq/=.
  destruct (headerMap arm64 !! p) as [[cy v|]|]; simplify_eq/=.
  eauto 10.
Qed.

Lemma identical_not_divergent x64 arm64 p :
  p ∈ identicalCommon x64 arm64 → p ∉ divergentCommon x64 arm64.
Proof.
  intros [_ H1]%elem_of_identicalCommon [_ H2]%elem_of_divergentCommon. congruence.
Qed.



(** ** The unpack list *)




(** ** Where the entries of the merged tree come from *)

Lemma isDirectory_lookup (a : Archive) d b :
  isDirectory a d = Ok b ↔ ∃ m, headerMap a !! d = Some m ∧ has_files_key m = b.
Proof.
  unfold isDirectory, statFile. destruct (headerMap a !! d) as [m|]; simpl.
  - split; [intros [= <-]; eauto|]. by intros (m' & [= <-] & <-).
  - split; [done|]. by intros (m' & ? & _).
Qed.

Lemma readable_kind x64 arm64 d mA mB :
  commonFilesReadable x64 arm64 →
  headerMap x64 !! d = Some mA → has_files_key mA = false →
  headerMap arm64 !! d = Some mB → has_files_key mB = false.
Proof.
  intros Hread HA HkA HB. unfold commonFilesReadable in Hread.
  rewrite Forall_forall in Hread.
  assert (d ∈ commonPaths x64 arm64) as Hc.
  { apply elem_of_commonPaths. split; apply fileSet_lookup; eauto. }
  assert (isDirectory x64 d = Ok false) as Hd by (apply isDirectory_lookup; eauto).
  specialize (Hread d Hc Hd). unfold extractFile in Hread. rewrite HB in Hread.
  by destruct mB.
Qed.

Lemma wfArchive_ancestors (a : Archive) q d :
  wfArchive a → q ∈ fileSet a → d ∈ ancestors q → isDirectory a d = Ok true.
Proof.
  unfold wfArchive. rewrite Forall_forall. intros Hwf Hq Hd.
  specialize (Hwf q Hq). rewrite Forall_forall in Hwf. by apply Hwf.
Qed.

Lemma origin_extracted x64 arm64 : origin x64 arm64 (extractedTree x64).
Proof.
  intros q n. rewrite lookup_extractedTree.
  destruct (headerMap x64 !! q) as [m|] eqn:E; [|done]. simpl. intros [= <-].
  left. exists m. split; [done|]. by destruct m.
Qed.

Lemma origin_mkdirs x64 arm64 (t : gmap string FsNode) (dirs : list string) :
  commonFilesReadable x64 arm64 →
  origin x64 arm64 t →
  (∀ d, d ∈ dirs → isDirectory arm64 d = Ok true) →
  ∃ t', mkdirs t dirs = Some t' ∧ origin x64 arm64 t'.
Proof.
  intros Hread Hor Hdirs.
  assert (∀ d, d ∈ dirs → is_file t d = false) as Hfree.
  { intros d Hd. unfold is_file. destruct (t !! d) as [[c|]|] eqn:E; try done.
    destruct (proj1 (isDirectory_lookup _ _ _) (Hdirs d Hd)) as (mB & HB & HkB).
    destruct (Hor d _ E) as [(mA & HA & HkA)|(_ & mB' & HB' & HkB')]; simpl in *.
    - pose proof (readable_kind _ _ _ _ _ Hread HA HkA HB). congruence.
    - congruence. }
  exists (foldr (fun d t' => <[d := FsDir]> t') t dirs). split.
  { apply mkdirs_Some. by split. }
  intros q n. rewrite lookup_make_dirs. case_bool_decide as Hq; [|apply Hor].
  intros [= <-]. simpl.
  destruct (proj1 (isDirectory_lookup _ _ _) (Hdirs q Hq)) as (mB & HB & HkB).
  destruct (headerMap x64 !! q) as [mA|] eqn:HA.
  - left. exists mA. split; [done|].
    destruct (has_files_key mA) eqn:HkA; [done|].
    pose proof (readable_kind _ _ _ _ _ Hread HA HkA HB). congruence.
  - right. split; [|eauto].
    intros [m Hm]%fileSet_lookup. congruence.
Qed.

Lemma origin_insert_arm64_file x64 arm64 (t : gmap string FsNode) q content content' u :
  origin x64 arm64 t → q ∉ fileSet x64 →
  headerMap arm64 !! q = Some (FileNode content u) →
  origin x64 arm64 (<[q := FsFile content']> t).
Proof.
  intros Hor Hq HB k n. destruct (decide (q = k)) as [<-|Hne].
  - rewrite lookup_insert_eq. intros [= <-]. right. split; [done|]. eauto.
  - rewrite lookup_insert_ne by done. apply Hor.
Qed.

Lemma origin_insert_x64_file x64 arm64 (t : gmap string FsNode) b content content' u :
  origin x64 arm64 t →
  headerMap x64 !! b = Some (FileNode content u) →
  origin x64 arm64 (<[b := FsFile content']> t).
Proof.
  intros Hor HA k n. destruct (decide (b = k)) as [<-|Hne].
  - rewrite lookup_insert_eq. intros [= <-]. left. eauto.
  - rewrite lookup_insert_ne by done. apply Hor.
Qed.

Lemma origin_not_dir_at_arm64_file x64 arm64 (t : gmap string FsNode) q content u :
  origin x64 arm64 t → q ∉ fileSet x64 →
  headerMap arm64 !! q = Some (FileNode content u) →
  t !! q ≠ Some FsDir.
Proof.
  intros Hor Hq HB Ht.
  destruct (Hor q _ Ht) as [(mA & HA & _)|(_ & mB & HB' & HkB)]; simpl in *.
  - apply Hq, fileSet_lookup. eauto.
  - rewrite HB in HB'. by simplify_eq.
Qed.

Lemma origin_file_at_x64_file x64 arm64 (t : gmap string FsNode) b content u :
  origin x64 arm64 t → is_Some (t !! b) →
  headerMap x64 !! b = Some (FileNode content u) →
  ∃ dst, t !! b = Some (FsFile dst).
Proof.
  intros Hor [n Hn] HA.
  destruct (Hor b _ Hn) as [(mA & HA' & HkA)|(Hb & _)].
  - rewrite HA in HA'. simplify_eq. destruct n; [by eauto|done].
  - exfalso. apply Hb, fileSet_lookup. eauto.
Qed.

Lemma origin_dom x64 arm64 (t : gmap string FsNode) q :
  origin x64 arm64 t → is_Some (t !! q) →
  q ∈ fileSet x64 ∨ q ∈ uniqueToB x64 arm64.
Proof.
  intros Hor [n Hn].
  destruct (Hor q _ Hn) as [(mA & HA & _)|(Hq & mB & HB & _)].
  - left. apply fileSet_lookup. eauto.
  - right. apply elem_of_uniqueToB. split; [|done]. apply fileSet_lookup. eauto.
Qed.

(** ** The merge as a whole *)




(** ** The scenarios of the specification *)

(** [a.txt] identical, [bin/native] differing Mach-O files, [b-only.txt]
    allowed: the merge succeeds, [lipo] runs once, on [bin/native], and the
    archive written holds the paths of both inputs. *)
Example scenario_allowed_unique_file :
  let final := mergeASARs literalMatch calmEnv sampleX64 sampleArm64 "out.asar"
                 (Some "b-only.txt") initialWorld in
  final.1 = Ok tt ∧
  List.filter (fun e => match e with EvLipo _ _ => true | _ => false end) (trace final.2)
    = [EvLipo "bin/native" "bin/native"] ∧
  (fun o => elements (dom o.1)) <$> output final.2
    = Some ["a.txt"; "b-only.txt"; "bin/native"; "bin"] ∧
  getDir X64 final.2 = None ∧ getDir Arm64 final.2 = None.
Proof. split_and!; vm_compute; reflexivity. Qed.

(** The same without an allow pattern: the unique file is reported and
    nothing is written. *)
Example scenario_no_allow_pattern :
  mergeASARs literalMatch calmEnv sampleX64 sampleArm64 "out.asar" None initialWorld
    = (Err (UnmatchedUniqueFile "b-only.txt" "arm64.asar" None), initialWorld).
Proof. reflexivity. Qed.

(** ** The magic number, byte by byte *)

Lemma lor_shiftl_add (a b n : N) :
  (a < 2 ^ n)%N → N.lor a (N.shiftl b n) = (a + b * 2 ^ n)%N.
Proof.
  intros Ha.
  assert (N.land a (N.shiftl b n) = 0%N) as Hland.
  { apply N.bits_inj_0. intros i. rewrite N.land_spec.
    destruct (N.lt_ge_cases i n) as [Hi|Hi].
    - rewrite N.shiftl_spec_low by done. apply andb_false_r.
    - destruct (N.eq_dec a 0%N) as [->|Hne]; [by rewrite N.bits_0|].
      rewrite N.bits_above_log2; [done|].
      apply N.lt_le_trans with n; [|done].
      apply N.log2_lt_pow2; [|done]. by apply N.neq_0_lt_0. }
  rewrite <- N.lxor_lor by done. rewrite <- N.add_nocarry_lxor by done.
  by rewrite N.shiftl_mul_pow2.
Qed.

Lemma readUInt32LE0_value (b0 b1 b2 b3 : byte) (rest : Buffer) :
  readUInt32LE0 (b0 :: b1 :: b2 :: b3 :: rest) =
    Ok (Byte.to_N b0 + 256 * Byte.to_N b1 + 65536 * Byte.to_N b2
        + 16777216 * Byte.to_N b3)%N.
Proof.
  pose proof (Byte.to_N_bounded b0). pose proof (Byte.to_N_bounded b1).
  pose proof (Byte.to_N_bounded b2). pose proof (Byte.to_N_bounded b3).
  unfold readUInt32LE0. f_equal.
  assert (N.lor (N.shiftl (Byte.to_N b2) 16) (N.shiftl (Byte.to_N b3) 24)
          = N.shiftl (Byte.to_N b2 + Byte.to_N b3 * 2 ^ 8) 16)%N as ->.
  { rewrite <- (lor_shiftl_add (Byte.to_N b2) (Byte.to_N b3) 8) by (simpl; lia).
    rewrite N.shiftl_lor, N.shiftl_shiftl. done. }
  assert (N.lor (N.shiftl (Byte.to_N b1) 8)
            (N.shiftl (Byte.to_N b2 + Byte.to_N b3 * 2 ^ 8) 16)
          = N.shiftl (Byte.to_N b1
                      + (Byte.to_N b2 + Byte.to_N b3 * 2 ^ 8) * 2 ^ 8) 8)%N as ->.
  { rewrite <- (lor_shiftl_add (Byte.to_N b1) _ 8) by (simpl; lia).
    rewrite N.shiftl_lor, N.shiftl_shiftl. done. }
  rewrite lor_shiftl_add by (simpl; lia).
  change (2 ^ 8)%N with 256%N. lia.
Qed.

(** X1: the check of line 112 in terms of the bytes of the file.  The
    little-endian read of the first four bytes is one of the values of
    [MACHO_MAGIC] exactly when the content starts with [ce fa ed fe],
    [fe ed fa ce], [cf fa ed fe] or [fe ed fa cf]. *)
Theorem X1_macho_magic_leading_bytes (content : Buffer) :
  (∃ magic, readUInt32LE0 content = Ok magic ∧ MACHO_MAGIC_has magic = true) ↔
  ∃ rest, content = [xce; xfa; xed; xfe]%byte ++ rest ∨
          content = [xfe; xed; xfa; xce]%byte ++ rest ∨
          content = [xcf; xfa; xed; xfe]%byte ++ rest ∨
          content = [xfe; xed; xfa; xcf]%byte ++ rest.
Proof.
  split.
  - intros (magic & Hread & Hhas).
    destruct content as [|b0 [|b1 [|b2 [|b3 rest]]]]; try done.
    rewrite readUInt32LE0_value in Hread. injection Hread as <-.
    pose proof (Byte.to_N_bounded b0). pose proof (Byte.to_N_bounded b1).
    pose proof (Byte.to_N_bounded b2). pose proof (Byte.to_N_bounded b3).
    exists rest. unfold MACHO_MAGIC_has, MACHO_MAGIC in Hhas. simpl in Hhas.
    rewrite !orb_true_iff, !N.eqb_eq in Hhas.
    destruct Hhas as [Hm|[Hm|[Hm|[Hm|?]]]]; [| | | |done].
    + assert (Byte.to_N b0 = Byte.to_N xce ∧ Byte.to_N b1 = Byte.to_N xfa ∧
              Byte.to_N b2 = Byte.to_N xed ∧ Byte.to_N b3 = Byte.to_N xfe)
        as (?%to_N_inj & ?%to_N_inj & ?%to_N_inj & ?%to_N_inj) by (simpl; lia).
      subst. by left.
    + assert (Byte.to_N b0 = Byte.to_N xfe ∧ Byte.to_N b1 = Byte.to_N xed ∧
              Byte.to_N b2 = Byte.to_N xfa ∧ Byte.to_N b3 = Byte.to_N xce)
        as (?%to_N_inj & ?%to_N_inj & ?%to_N_inj & ?%to_N_inj) by (simpl; lia).
      subst. right. by left.
    + assert (Byte.to_N b0 = Byte.to_N xcf ∧ Byte.to_N b1 = Byte.to_N xfa ∧
              Byte.to_N b2 = Byte.to_N xed ∧ Byte.to_N b3 = Byte.to_N xfe)
        as (?%to_N_inj & ?%to_N_inj & ?%to_N_inj & ?%to_N_inj) by (simpl; lia).
      subst. right. right. by left.
    + assert (Byte.to_N b0 = Byte.to_N xfe ∧ Byte.to_N b1 = Byte.to_N xed ∧
              Byte.to_N b2 = Byte.to_N xfa ∧ Byte.to_N b3 = Byte.to_N xcf)
        as (?%to_N_inj & ?%to_N_inj & ?%to_N_inj & ?%to_N_inj) by (simpl; lia).
      subst. by do 3 right.
  - intros (rest & [->|[->|[->| ->]]]); eexists; (split; [reflexivity|reflexivity]).
Qed.

(** ** What each external call leaves alone *)

Lemma isDirectory_Err_external (a : Archive) f e :
  isDirectory a f = Err e → external e.
Proof.
  unfold isDirectory, statFile. destruct (headerMap a !! f); simpl; [done|].
  intros [= <-]. by eexists _, _.
Qed.

Lemma output_setDir s t w : output (setDir s t w) = output w.
Proof. by destruct s. Qed.

Section Frames.
Variable env : Env.

Lemma mkdtemp_frame s w :
  trace (mkdtemp env s w).2 = trace w ++ [EvMkdtemp s] ∧
  output (mkdtemp env s w).2 = output w ∧
  (∀ e, (mkdtemp env s w).1 = Err e → external e).
Proof.
  unfold mkdtemp. destruct (mkdtemp_fails env s); simpl;
    rewrite ?trace_setDir, ?output_setDir; split_and!; try done.
  intros e [= <-]. by eexists _, _.
Qed.

Lemma extractAll_frame a s w :
  trace (extractAll env a s w).2 = trace w ++ [EvExtractAll (asarPath a) s] ∧
  output (extractAll env a s w).2 = output w ∧
  (∀ e, (extractAll env a s w).1 = Err e → external e).
Proof.
  unfold extractAll. destruct (extractAll_fails env s); simpl;
    rewrite ?trace_setDir, ?output_setDir; split_and!; try done.
  intros e [= <-]. by eexists _, _.
Qed.

Lemma mkdirp_frame path dirs w :
  trace (mkdirp env path dirs w).2 = trace w ++ [EvMkdirp path] ∧
  output (mkdirp env path dirs w).2 = output w ∧
  (∀ e, (mkdirp env path dirs w).1 = Err e → external e).
Proof.
  unfold mkdirp. destruct (mkdirp_fails env path); simpl.
  { split_and!; try done. intros e [= <-]. by eexists _, _. }
  destruct (dirX64 w ≫= _); simpl; split_and!; try done.
  intros e [= <-]. by eexists _, _.
Qed.

Lemma copy_frame file w :
  trace (copy env file w).2 = trace w ++ [EvCopy file] ∧
  output (copy env file w).2 = output w ∧
  (∀ e, (copy env file w).1 = Err e → external e).
Proof.
  unfold copy. destruct (copy_fails env file); simpl.
  { split_and!; try done. intros e [= <-]. by eexists _, _. }
  destruct (dirArm64 w ≫= _) as [[c|]|]; simpl;
    try (split_and!; try done; intros e [= <-]; by eexists _, _).
  destruct (dirX64 w) as [t|]; simpl;
    try (split_and!; try done; intros e [= <-]; by eexists _, _).
  destruct (t !! file) as [[c'|]|]; simpl;
    (split_and!; try done; intros e [= <-]; by eexists _, _).
Qed.

Lemma realpath_frame s file w :
  trace (realpath env s file w).2 = trace w ++ [EvRealpath s file] ∧
  output (realpath env s file w).2 = output w ∧
  (∀ e, (realpath env s file w).1 = Err e → external e) ∧
  (∀ a, (realpath env s file w).1 = Ok a → a = file).
Proof.
  unfold realpath. destruct (realpath_fails env s file); simpl.
  { split_and!; try done. intros e [= <-]. by eexists _, _. }
  destruct (getDir s _ ≫= _); simpl; split_and!; try done.
  - by intros a [= <-].
  - intros e [= <-]. by eexists _, _.
Qed.

Lemma lipo_frame source destination w :
  trace (lipo env source destination w).2 = trace w ++ [EvLipo source destination] ∧
  output (lipo env source destination w).2 = output w ∧
  (∀ e, (lipo env source destination w).1 = Err e → external e).
Proof.
  unfold lipo. simpl.
  destruct (dirArm64 w ≫= _) as [[src|]|]; simpl;
    try (split_and!; try done; intros e [= <-]; by eexists _, _).
  destruct (dirX64 w) as [t|]; simpl;
    try (split_and!; try done; intros e [= <-]; by eexists _, _).
  destruct (t !! destination) as [[dst|]|]; simpl;
    try (split_and!; try done; intros e [= <-]; by eexists _, _).
  destruct (lipo_run env src dst); simpl;
    (split_and!; try done; intros e [= <-]; by eexists _, _).
Qed.

Lemma createPackage_frame dest unpack w :
  trace (createPackageWithOptions env dest unpack w).2
    = trace w ++ [EvCreatePackage dest unpack] ∧
  (∀ e, (createPackageWithOptions env dest unpack w).1 = Err e →
        external e ∧ output (createPackageWithOptions env dest unpack w).2 = output w).
Proof.
  unfold createPackageWithOptions. destruct (createPackage_fails env); simpl.
  { split; [done|]. intros e [= <-]. split; [by eexists _, _|done]. }
  destruct (dirX64 w); simpl; (split; [done|]); [done|].
  intros e [= <-]. split; [by eexists _, _|done].
Qed.

Lemma copyArm64Unique_frame arm64 arm64Unique w :
  output (copyArm64Unique env arm64 arm64Unique w).2 = output w ∧
  (∀ e, (copyArm64Unique env arm64 arm64Unique w).1 = Err e → external e) ∧
  ((copyArm64Unique env arm64 arm64Unique w).1 = Ok tt →
   trace (copyArm64Unique env arm64 arm64Unique w).2
     = trace w ++ copyCalls arm64 arm64Unique).
Proof.
  revert w. induction arm64Unique as [|file rest IH]; intros w.
  { simpl. split_and!; [done|done|]. intros _. by rewrite app_nil_r. }
  cbn [copyArm64Unique copyCalls mbind list_bind]. fold (copyCalls arm64 rest).
  unfold mbind at 1, M_bind at 1, liftR.
  destruct (isDirectory arm64 file) as [[|]|e0] eqn:Hd; simpl.
  - unfold mbind, M_bind.
    destruct (mkdirp_frame file (ancestors file ++ [file]) w) as (Ht & Ho & He).
    destruct (mkdirp env file (ancestors file ++ [file]) w) as [[[]|e] w1]; simpl in *.
    + destruct (IH w1) as (Ho' & He' & Ht'). split_and!; [congruence|done|].
      intros Hok. rewrite (Ht' Hok), Ht. by rewrite <- app_assoc.
    + split_and!; [done| |done]. intros e' [= <-]. by apply He.
  - unfold mbind, M_bind.
    destruct (mkdirp_frame (dirname file) (ancestors file) w) as (Ht & Ho & He).
    destruct (mkdirp env (dirname file) (ancestors file) w) as [[[]|e] w1]; simpl in *.
    + destruct (copy_frame file w1) as (Ht1 & Ho1 & He1).
      destruct (copy env file w1) as [[[]|e] w2]; simpl in *.
      * destruct (IH w2) as (Ho' & He' & Ht'). split_and!; [congruence|done|].
        intros Hok. rewrite (Ht' Hok), Ht1, Ht. by rewrite <- !app_assoc.
      * split_and!; [congruence| |done]. intros e' [= <-]. by apply He1.
    + split_and!; [done| |done]. intros e' [= <-]. by apply He.
  - split_and!; [done| |done]. intros e' [= <-]. by eapply isDirectory_Err_external.
Qed.

Lemma mergeBindings_frame commonBindings w :
  output (mergeBindings env commonBindings w).2 = output w ∧
  (∀ e, (mergeBindings env commonBindings w).1 = Err e → external e) ∧
  ((mergeBindings env commonBindings w).1 = Ok tt →
   trace (mergeBindings env commonBindings w).2 = trace w ++ bindingCalls commonBindings).
Proof.
  revert w. induction commonBindings as [|b rest IH]; intros w.
  { simpl. split_and!; [done|done|]. intros _. by rewrite app_nil_r. }
  cbn [mergeBindings bindingCalls mbind list_bind]. fold (bindingCalls rest).
  unfold mbind, M_bind.
  destruct (realpath_frame Arm64 b w) as (Ht & Ho & He & Ha).
  destruct (realpath env Arm64 b w) as [[source|e] w1]; simpl in *.
  2:{ split_and!; [done| |done]. intros e' [= <-]. by apply He. }
  rewrite (Ha source eq_refl).
  destruct (realpath_frame X64 b w1) as (Ht1 & Ho1 & He1 & Ha1).
  destruct (realpath env X64 b w1) as [[destination|e] w2]; simpl in *.
  2:{ split_and!; [congruence| |done]. intros e' [= <-]. by apply He1. }
  rewrite (Ha1 destination eq_refl).
  destruct (lipo_frame b b w2) as (Ht2 & Ho2 & He2).
  destruct (lipo env b b w2) as [[[]|e] w3]; simpl in *.
  2:{ split_and!; [congruence| |done]. intros e' [= <-]. by apply He2. }
  destruct (IH w3) as (Ho' & He' & Ht'). split_and!; [congruence|done|].
  intros Hok. rewrite (Ht' Hok), Ht2, Ht1, Ht. by rewrite <- !app_assoc.
Qed.

Lemma tryBody_frame x64 arm64 out x64Dir u au cb w :
  (∀ e, (tryBody env x64 arm64 out x64Dir u au cb w).1 = Err e →
        external e ∧ output (tryBody env x64 arm64 out x64Dir u au cb w).2 = output w) ∧
  ((tryBody env x64 arm64 out x64Dir u au cb w).1 = Ok tt →
   trace (tryBody env x64 arm64 out x64Dir u au cb w).2 =
     trace w ++ [EvExtractAll (asarPath x64) X64; EvExtractAll (asarPath arm64) Arm64]
       ++ copyCalls arm64 au ++ bindingCalls cb
       ++ [EvCreatePackage out (path_join x64Dir <$> u)]).
Proof.
  unfold tryBody, mbind, M_bind.
  destruct (extractAll_frame x64 X64 w) as (Ht & Ho & He).
  destruct (extractAll env x64 X64 w) as [[[]|e] w1]; simpl in *.
  2:{ split; [|done]. intros e' [= <-]. split; [by apply He|done]. }
  destruct (extractAll_frame arm64 Arm64 w1) as (Ht1 & Ho1 & He1).
  destruct (extractAll env arm64 Arm64 w1) as [[[]|e] w2]; simpl in *.
  2:{ split; [|done]. intros e' [= <-]. split; [by apply He1|congruence]. }
  destruct (copyArm64Unique_frame arm64 au w2) as (Ho2 & He2 & Ht2).
  destruct (copyArm64Unique env arm64 au w2) as [[[]|e] w3]; simpl in *.
  2:{ split; [|done]. intros e' [= <-]. split; [by apply He2|congruence]. }
  destruct (mergeBindings_frame cb w3) as (Ho3 & He3 & Ht3).
  destruct (mergeBindings env cb w3) as [[[]|e] w4]; simpl in *.
  2:{ split; [|done]. intros e' [= <-]. split; [by apply He3|congruence]. }
  destruct (createPackage_frame out (path_join x64Dir <$> u) w4) as (Ht4 & He4).
  split.
  - intros e Herr. destruct (He4 e Herr) as [? Ho4]. split; [done|congruence].
  - intros _. rewrite Ht4, (Ht3 eq_refl), (Ht2 eq_refl), Ht1, Ht.
    by rewrite <- !app_assoc.
Qed.

End Frames.

(** ** Errors, the output and the sequence of calls *)

Lemma readUInt32LE0_Err (buf : Buffer) e :
  readUInt32LE0 buf = Err e → e = RangeError ∧ length buf < 4.
Proof.
  destruct buf as [|? [|? [|? [|? ?]]]]; simpl; intros [= <-]; split; (done || lia).
Qed.

Lemma stage_Err_external env x64 arm64 out u au cb w e :
  (stage env x64 arm64 out u au cb w).1 = Err e → external e.
Proof.
  destruct (mkdtemp_fails env X64) eqn:H1.
  { unfold stage, mbind, M_bind, mkdtemp. rewrite H1. simpl.
    intros [= <-]. by eexists _, _. }
  destruct (mkdtemp_fails env Arm64) eqn:H2.
  { unfold stage, mbind, M_bind, mkdtemp. rewrite H1. simpl. rewrite H2. simpl.
    intros [= <-]. by eexists _, _. }
  rewrite stage_unfold by done. unfold try_finally.
  destruct (tryBody_frame env x64 arm64 out (tmpName env X64) u au cb (afterMkdtemps w))
    as [Hb _].
  destruct (tryBody _ _ _ _ _ _ _ _ _) as [rb wb]. rewrite cleanup_spec. simpl in *.
  destruct (remove_fails env X64); simpl; [intros [= <-]; by eexists _, _|].
  destruct (remove_fails env Arm64); simpl; [intros [= <-]; by eexists _, _|].
  intros ->. by apply Hb.
Qed.

(** X2: the three errors of the source itself are raised by the
    validation only.  When [mergeASARs] ends with the unique-file error,
    the file it names is in the named archive only and is not covered by
    the allow list; when it ends with the non-Mach-O error, the file it
    names is a divergent common file whose x64 content starts with four
    bytes that are no magic number; when it ends with the range error, some
    divergent common file has fewer than four bytes in the x64 archive.
    In all three cases the world is left as it was. *)
Theorem X2_source_errors_come_from_validation mm env x64 arm64 out allow w w' e :
  mergeASARs mm env x64 arm64 out allow w = (Err e, w') →
  match e with
  | UnmatchedUniqueFile g archive allowList =>
      w' = w ∧ allowList = allow ∧ (g, archive) ∈ uniqueScan x64 arm64 ∧
      allowed mm allow g = false
  | NonMachoFiles f =>
      w' = w ∧ f ∈ divergentCommon x64 arm64 ∧
      ∃ magic, x64Magic x64 f = Ok magic ∧ MACHO_MAGIC_has magic = false
  | RangeError =>
      w' = w ∧ ∃ f content, f ∈ divergentCommon x64 arm64 ∧
                            extractFile x64 f = Ok content ∧ length content < 4
  | ExternalFailure _ _ => True
  end.
Proof.
  rewrite mergeASARs_unfold.
  destruct (validate mm x64 arm64 allow) as [[[u au] cb]|e0] eqn:Hv.
  { intros Hrun.
    destruct (stage_Err_external env x64 arm64 out u au cb w e) as (op & path & ->);
      [by rewrite Hrun|done]. }
  intros [= -> ->].
  destruct (validate_spec mm x64 arm64 allow) as (u & _ & Hv'). rewrite Hv in Hv'.
  destruct (firstUnmatched mm allow (uniqueScan x64 arm64)) as [[g archive]|] eqn:Hfirst.
  { injection Hv' as ->. apply firstUnmatched_Some in Hfirst as [? ?]. by split_and!. }
  pose proof (collectCommonBindings_inv x64 arm64 (fileSet arm64) (fileSet x64) []) as Hinv.
  destruct (collectCommonBindings x64 arm64 (fileSet arm64) (fileSet x64) []) as [cb|e1];
    [done|].
  injection Hv' as ->. destruct Hinv as (g & Hg & Hstep).
  rewrite commonBindings_step_spec in Hstep.
  destruct (Set_has (fileSet arm64) g) eqn:Hin; [|done].
  destruct (isDirectory x64 g) as [[|]|e2] eqn:Hd; [done| |].
  2:{ injection Hstep as ->.
      by destruct (isDirectory_Err_external _ _ _ Hd) as (op & path & ->). }
  destruct (sameContent x64 arm64 g) as [[|]|] eqn:Hs; [done| |by injection Hstep as <-].
  assert (g ∈ divergentCommon x64 arm64) as Hdiv.
  { apply elem_of_divergentCommon. split; [|done].
    apply elem_of_commonPaths. split; [done|]. by apply Set_has_true. }
  pose proof Hs as (_ & cx & cy & Hx & _ & _)%sameContent_Some.
  unfold x64Magic in *. rewrite Hx in *. simpl in *.
  destruct (readUInt32LE0 cx) as [magic|e3] eqn:Hm; simpl in *.
  - destruct (MACHO_MAGIC_has magic) eqn:Hhas; [done|]. injection Hstep as <-.
    split_and!; [done|done|]. exists magic. by rewrite Hx; simpl.
  - injection Hstep as ->. apply readUInt32LE0_Err in Hm as [-> Hlen].
    split; [done|]. by exists g, cx.
Qed.

Lemma X2_witness :
  initialWorld = initialWorld ∧ "a.txt" ∈ divergentCommon plainX64 plainArm64 ∧
  ∃ magic, x64Magic plainX64 "a.txt" = Ok magic ∧ MACHO_MAGIC_has magic = false.
Proof.
  apply (X2_source_errors_come_from_validation literalMatch calmEnv plainX64 plainArm64
           "out.asar" None initialWorld initialWorld (NonMachoFiles "a.txt")).
  reflexivity.
Defined.



Lemma stage_Ok_trace env x64 arm64 out u au cb w w' :
  stage env x64 arm64 out u au cb w = (Ok tt, w') →
  trace w' =
    trace w
    ++ [EvMkdtemp X64; EvMkdtemp Arm64;
        EvExtractAll (asarPath x64) X64; EvExtractAll (asarPath arm64) Arm64]
    ++ copyCalls arm64 au
    ++ bindingCalls cb
    ++ [EvCreatePackage out (path_join (tmpName env X64) <$> u);
        EvRemove X64; EvRemove Arm64].
Proof.
  intros Hrun.
  pose proof (stage_Ok _ _ _ _ _ _ _ _ _ Hrun) as (H1 & H2 & Hbody & _).
  rewrite stage_unfold in Hrun by done. unfold try_finally in Hrun.
  destruct (tryBody_frame env x64 arm64 out (tmpName env X64) u au cb (afterMkdtemps w))
    as [_ Ht].
  destruct (tryBody _ _ _ _ _ _ _ _ _) as [rb wb]. rewrite cleanup_spec in Hrun.
  simpl in *. specialize (Ht Hbody).
  assert (trace w' = trace wb ++ [EvRemove X64; EvRemove Arm64]) as ->.
  { destruct (remove_fails env X64), (remove_fails env Arm64); simplify_eq/=.
    by rewrite <- app_assoc. }
  rewrite Ht. repeat (rewrite <- app_assoc; simpl). done.
Qed.

Lemma mergeASARs_Ok_trace mm env x64 arm64 out allow w w' :
  mergeASARs mm env x64 arm64 out allow w = (Ok tt, w') →
  ∃ u, unpackedSpec x64 arm64 u ∧
    trace w' =
      trace w
      ++ [EvMkdtemp X64; EvMkdtemp Arm64;
          EvExtractAll (asarPath x64) X64; EvExtractAll (asarPath arm64) Arm64]
      ++ copyCalls arm64 (uniqueToB x64 arm64)
      ++ bindingCalls (divergentCommon x64 arm64)
      ++ [EvCreatePackage out (path_join (tmpName env X64) <$> u);
          EvRemove X64; EvRemove Arm64].
Proof.
  intros Hrun. rewrite mergeASARs_unfold in Hrun.
  destruct (validate mm x64 arm64 allow) as [[[u au] cb]|] eqn:Hv; [|done].
  pose proof (validate_Ok _ _ _ _ _ _ _ Hv) as (Hu & -> & -> & _).
  exists u. split; [done|]. by apply stage_Ok_trace.
Qed.

(** X4: the external calls of a successful run, in order: the two
    [mkdtemp], the two [extractAll], for each path unique to the arm64
    archive (in the order of its listing) [mkdirp] of it when it is a
    directory and [mkdirp] of its parent then [copy] when it is a file, for
    each divergent common file (in the order of the x64 listing) the two
    [realpath] and one [lipo], one [createPackageWithOptions], and the two
    removals; nothing else. *)
Theorem X4_calls_of_a_successful_run mm env x64 arm64 out allow w w' :
  mergeASARs mm env x64 arm64 out allow w = (Ok tt, w') →
  ∃ u, unpackedSpec x64 arm64 u ∧
    trace w' =
      trace w
      ++ [EvMkdtemp X64; EvMkdtemp Arm64;
          EvExtractAll (asarPath x64) X64; EvExtractAll (asarPath arm64) Arm64]
      ++ copyCalls arm64 (uniqueToB x64 arm64)
      ++ bindingCalls (divergentCommon x64 arm64)
      ++ [EvCreatePackage out (path_join (tmpName env X64) <$> u);
          EvRemove X64; EvRemove Arm64].
Proof. apply mergeASARs_Ok_trace. Qed.

Lemma X4_witness :
  ∃ u, unpackedSpec sampleX64 sampleArm64 u ∧
    trace (mergeASARs literalMatch calmEnv sampleX64 sampleArm64 "out.asar"
             (Some "b-only.txt") initialWorld).2 =
      trace initialWorld
      ++ [EvMkdtemp X64; EvMkdtemp Arm64;
          EvExtractAll (asarPath sampleX64) X64; EvExtractAll (asarPath sampleArm64) Arm64]
      ++ copyCalls sampleArm64 (uniqueToB sampleX64 sampleArm64)
      ++ bindingCalls (divergentCommon sampleX64 sampleArm64)
      ++ [EvCreatePackage "out.asar" (path_join (tmpName calmEnv X64) <$> u);
          EvRemove X64; EvRemove Arm64].
Proof.
  apply (X4_calls_of_a_successful_run literalMatch calmEnv sampleX64 sampleArm64
           "out.asar" (Some "b-only.txt") initialWorld).
  vm_compute. reflexivity.
Defined.

(** X5: the two [mkdtemp] calls are made before the [try] statement.
    When the first succeeds and the second fails, [mergeASARs] ends with
    the error of the second, no removal is attempted, and the x64 scratch
    directory stays behind, empty. *)
Theorem X5_second_mkdtemp_failure_leaves_first_directory
    mm env x64 arm64 out allow w u au cb :
  validate mm x64 arm64 allow = Ok (u, au, cb) →
  mkdtemp_fails env X64 = false →
  mkdtemp_fails env Arm64 = true →
  let final := mergeASARs mm env x64 arm64 out allow w in
  final.1 = Err (ExternalFailure OpMkdtemp (tmpName env Arm64)) ∧
  trace final.2 = trace w ++ [EvMkdtemp X64; EvMkdtemp Arm64] ∧
  dirX64 final.2 = Some ∅ ∧
  dirArm64 final.2 = dirArm64 w ∧
  output final.2 = output w.
Proof.
  intros Hv H1 H2 final. unfold final.
  rewrite (mergeASARs_validate_ok _ _ _ _ _ _ _ _ _ _ Hv).
  unfold stage, mbind, M_bind, mkdtemp. rewrite H1. simpl. rewrite H2. simpl.
  split_and!; try done. by rewrite <- app_assoc.
Qed.

Lemma X5_witness :
  let final := mergeASARs literalMatch noSecondTmpEnv sampleX64 sampleArm64 "out.asar"
                 (Some "b-only.txt") initialWorld in
  final.1 = Err (ExternalFailure OpMkdtemp (tmpName noSecondTmpEnv Arm64)) ∧
  trace final.2 = trace initialWorld ++ [EvMkdtemp X64; EvMkdtemp Arm64] ∧
  dirX64 final.2 = Some ∅ ∧
  dirArm64 final.2 = dirArm64 initialWorld ∧
  output final.2 = output initialWorld.
Proof.
  apply (X5_second_mkdtemp_failure_leaves_first_directory literalMatch noSecondTmpEnv
           sampleX64 sampleArm64 "out.asar" (Some "b-only.txt") initialWorld
           ["bin/native"] ["b-only.txt"] ["bin/native"]); reflexivity.
Defined.

(** ** The file sets *)

Lemma foldl_Set_add_NoDup (l s : list string) :
  NoDup (s ++ l) → foldl Set_add s l = s ++ l.
Proof.
  revert s. induction l as [|x l IH]; intros s Hnd; simpl; [by rewrite app_nil_r|].
  assert (Set_add s x = s ++ [x]) as ->.
  { unfold Set_add. rewrite (proj2 (Set_has_false s x)); [done|].
    apply NoDup_app in Hnd as (_ & Hd & _). intros Hx. apply (Hd x Hx). set_solver. }
  rewrite IH; [by rewrite <- app_assoc|]. by rewrite <- app_assoc.
Qed.

(** X6: the set of paths [mergeASARs] reads from an archive holds every
    path the archive lists, without its leading separator, and each path
    once; [asar.statFile] answers for each of them; and when the listing
    has no path twice the set is scanned in the order of the listing. *)
Theorem X6_file_set_of_an_archive (a : Archive) :
  NoDup (fileSet a) ∧
  (∀ f, f ∈ fileSet a ↔ String "/" f ∈ listPackage a) ∧
  (∀ f, f ∈ fileSet a → is_ok (statFile a f) = true) ∧
  (NoDup (listPackage a) → fileSet a = toRelativePath <$> listPackage a).
Proof.
  split_and!.
  - apply NoDup_fileSet.
  - intros f. rewrite elem_of_fileSet. unfold listPackage.
    rewrite !list_elem_of_fmap. split.
    + intros (e & -> & He). by exists e.
    + intros (e & [= ->] & He). by exists e.
  - intros f (stat & -> & _)%statFile_listed. done.
  - intros Hnd. unfold fileSet, Set_from. apply foldl_Set_add_NoDup. simpl.
    assert (listPackage a = String "/" <$> (header a).*1) as Hl
      by (unfold listPackage; by rewrite <- list_fmap_compose).
    rewrite Hl in *. rewrite <- list_fmap_compose.
    apply NoDup_fmap_1 in Hnd.
    erewrite list_fmap_ext; [rewrite list_fmap_id; exact Hnd|]. done.
Qed.

Lemma X6_witness :
  fileSet sampleArm64 = toRelativePath <$> listPackage sampleArm64.
Proof.
  apply (X6_file_set_of_an_archive sampleArm64).
  apply (bool_decide_unpack _). vm_compute. exact I.
Defined.

(** ** What the validation lets through *)

(** X7: external calls are made only for inputs that pass the
    validation.  When a run of [mergeASARs] makes any external call, every
    path that is in one archive only is covered by the allow list, every
    common path that is a file in the x64 archive could be read from the
    arm64 archive, and every divergent common file starts, in the x64
    archive, with a Mach-O magic number. *)
Theorem X7_external_calls_only_after_validation mm env x64 arm64 out allow w :
  trace (mergeASARs mm env x64 arm64 out allow w).2 ≠ trace w →
  Forall (fun f => allowed mm allow f = true) (uniqueToA x64 arm64 ++ uniqueToB x64 arm64) ∧
  commonFilesReadable x64 arm64 ∧
  Forall (fun f => recognizedMachO x64 f = true) (divergentCommon x64 arm64).
Proof.
  intros Hcalls.
  destruct (mergeASARs_traced mm env x64 arm64 out allow w)
    as [(e & _ & Hrun)|(u & Hv & _)]; [by rewrite Hrun in Hcalls|].
  apply validate_Ok in Hv as (_ & _ & _ & Hfirst & Hvalid).
  rewrite firstUnmatched_None in Hfirst. split_and!.
  - apply Forall_forall. intros f [Hf|Hf]%elem_of_app.
    + apply (Hfirst (f, asarPath x64)), elem_of_uniqueScan. left.
      by apply elem_of_uniqueToA in Hf.
    + apply (Hfirst (f, asarPath arm64)), elem_of_uniqueScan. right.
      by apply elem_of_uniqueToB in Hf.
  - apply Forall_forall. intros f Hf Hd.
    pose proof Hf as [Hx _]%elem_of_commonPaths. by apply (Hvalid f Hx).
  - apply Forall_forall. intros f Hf.
    pose proof Hf as [Hc Hs]%elem_of_divergentCommon.
    pose proof Hc as [Hx _]%elem_of_commonPaths.
    apply sameContent_Some in Hs as [Hd _]. by apply (Hvalid f Hx).
Qed.

Lemma X7_witness :
  Forall (fun f => allowed literalMatch (Some "b-only.txt") f = true)
         (uniqueToA sampleX64 sampleArm64 ++ uniqueToB sampleX64 sampleArm64) ∧
  commonFilesReadable sampleX64 sampleArm64 ∧
  Forall (fun f => recognizedMachO sampleX64 f = true)
         (divergentCommon sampleX64 sampleArm64).
Proof.
  apply (X7_external_calls_only_after_validation literalMatch lipoFailsEnv sampleX64
           sampleArm64 "out.asar" (Some "b-only.txt") initialWorld).
  vm_compute. discriminate.
Defined.


(** X9: the unique files of the x64 archive are checked before those of
    the arm64 archive.  When some file that only the x64 archive has is
    not covered by the allow list, the error names a file of the x64
    archive, whatever the arm64 archive has. *)
Theorem X9_x64_unique_files_reported_first mm env x64 arm64 out allow w f :
  f ∈ uniqueToA x64 arm64 →
  allowed mm allow f = false →
  ∃ g, g ∈ uniqueToA x64 arm64 ∧ allowed mm allow g = false ∧
       mergeASARs mm env x64 arm64 out allow w
         = (Err (UnmatchedUniqueFile g (asarPath x64) allow), w).
Proof.
  intros Hf Hna.
  destruct (head (filter (fun f => allowed mm allow f = false) (uniqueToA x64 arm64)))
    as [g|] eqn:Hhead.
  - assert (g ∈ filter (fun f => allowed mm allow f = false) (uniqueToA x64 arm64)) as Hg.
    { destruct (filter _ _) as [|g' l]; simplify_eq/=. set_solver. }
    apply list_elem_of_filter in Hg as [Hg1 Hg2].
    exists g. split_and!; [done|done|].
    apply mergeASARs_validate_err.
    destruct (validate_spec mm x64 arm64 allow) as (u & _ & ->).
    by rewrite firstUnmatched_uniqueScan, Hhead.
  - assert (f ∈ filter (fun f => allowed mm allow f = false) (uniqueToA x64 arm64)) as Hin
      by (by apply list_elem_of_filter).
    destruct (filter _ _); [by apply elem_of_nil in Hin|done].
Qed.

Lemma X9_witness :
  ∃ g, g ∈ uniqueToA onlyX64 onlyArm64 ∧ allowed literalMatch None g = false ∧
       mergeASARs literalMatch calmEnv onlyX64 onlyArm64 "out.asar" None initialWorld
         = (Err (UnmatchedUniqueFile g (asarPath onlyX64) None), initialWorld).
Proof.
  apply (X9_x64_unique_files_reported_first literalMatch calmEnv onlyX64 onlyArm64
           "out.asar" None initialWorld "x-only.txt").
  - apply (bool_decide_unpack _). vm_compute. exact I.
  - reflexivity.
Defined.

(** X10: the allow list is consulted for unique files only.  When no
    path is in one archive only, the run of [mergeASARs] is the same for
    every allow pattern, an absent one included, and every matcher. *)
Theorem X10_allow_list_unused_without_unique_files
    mm mm' env x64 arm64 out allow allow' w :
  uniqueToA x64 arm64 = [] →
  uniqueToB x64 arm64 = [] →
  mergeASARs mm env x64 arm64 out allow w = mergeASARs mm' env x64 arm64 out allow' w.
Proof.
  intros HA HB.
  assert (validate mm x64 arm64 allow = validate mm' x64 arm64 allow') as Hv.
  { unfold validate. rewrite !checkX64Unique_spec, !collectArm64Unique_spec.
    fold (uniqueToA x64 arm64). fold (uniqueToB x64 arm64). by rewrite HA, HB. }
  by rewrite !mergeASARs_unfold, Hv.
Qed.

Lemma X10_witness :
  mergeASARs literalMatch calmEnv mixedX64 mixedArm64 "out.asar" None initialWorld
  = mergeASARs (fun _ _ => false) calmEnv mixedX64 mixedArm64 "out.asar" (Some "*")
      initialWorld.
Proof.
  apply (X10_allow_list_unused_without_unique_files literalMatch (fun _ _ => false)
           calmEnv mixedX64 mixedArm64 "out.asar" None (Some "*") initialWorld);
    reflexivity.
Defined.

(** ** The content of the archive written *)

Lemma mkdirs_keeps_existing (t t' : gmap string FsNode) (dirs : list string) k n :
  mkdirs t dirs = Some t' → t !! k = Some n → t' !! k = Some n.
Proof.
  intros Hm Hk. destruct n as [c|]; [by eapply mkdirs_keeps_file|].
  rewrite (mkdirs_lookup _ _ _ _ Hm). by destruct (bool_decide _).
Qed.

Lemma mergeBindings_tree_ix env tB (J : list string → gmap string FsNode → Prop)
    (rest processed : list string) :
  NoDup (processed ++ rest) →
  (∀ processed b t src dst merged, b ∈ rest → b ∉ processed → J processed t →
     tB !! b = Some (FsFile src) → t !! b = Some (FsFile dst) →
     lipo_run env src dst = Some merged →
     J (processed ++ [b]) (<[b := FsFile merged]> t)) →
  hoare (treeState (J processed) tB) (mergeBindings env rest)
    (fun r w => r = Ok tt → treeState (J (processed ++ rest)) tB w).
Proof.
  revert processed. induction rest as [|b rest IH]; intros processed Hnd Hstep; simpl.
  { intros w Hw _. by rewrite app_nil_r. }
  assert (b ∉ processed) as Hfresh.
  { apply NoDup_app in Hnd as (_ & Hd & _). intros Hb. apply (Hd b Hb). set_solver. }
  eapply hoare_bind; [apply realpath_tree| |done].
  intros source.
  eapply hoare_bind with
    (Q := fun r w => ∀ a, r = Ok a → a = b ∧ source = b ∧ treeState (J processed) tB w).
  - intros w Hw. destruct (Hw source eq_refl) as (-> & _ & w0 & Hw0 & Hx & Hy).
    pose proof (realpath_tree env X64 b (fun w' => w' = w) w eq_refl) as Hr.
    intros a Ha. destruct (Hr a Ha) as (-> & _ & w1 & -> & Hx' & Hy').
    split_and!; [done|done|].
    eapply treeState_same_dirs; [exact Hw0|congruence|congruence].
  - intros destination.
    eapply hoare_bind with
      (Q := fun r w => r = Ok tt → treeState (J (processed ++ [b])) tB w).
    + intros w Hw. destruct (Hw destination eq_refl) as (-> & -> & Hts).
      eapply (lipo_tree env tB b b (J processed)); [|exact Hts].
      intros t src dst merged. apply Hstep; [set_solver|done].
    + intros []. intros w Hw. specialize (Hw eq_refl).
      replace (processed ++ b :: rest) with ((processed ++ [b]) ++ rest)
        by (by rewrite <- app_assoc).
      eapply IH; [by rewrite <- app_assoc| |exact Hw].
      intros p' b' t src dst merged Hb'. apply Hstep. set_solver.
    + done.
  - done.
Qed.

Lemma tryBody_tree_ix env x64 arm64 out x64Dir u au cb
    (I J : list string → gmap string FsNode → Prop) :
  NoDup cb →
  I [] (extractedTree x64) →
  (∀ processed q t t', q ∈ au → isDirectory arm64 q = Ok true → I processed t →
     mkdirs t (ancestors q ++ [q]) = Some t' → I (processed ++ [q]) t') →
  (∀ processed q t t1 content, q ∈ au → isDirectory arm64 q = Ok false →
     I processed t → mkdirs t (ancestors q) = Some t1 →
     extractedTree arm64 !! q = Some (FsFile content) → t1 !! q ≠ Some FsDir →
     I (processed ++ [q]) (<[q := FsFile content]> t1)) →
  (∀ t, I au t → J [] t) →
  (∀ processed b t src dst merged, b ∈ cb → b ∉ processed → J processed t →
     extractedTree arm64 !! b = Some (FsFile src) → t !! b = Some (FsFile dst) →
     lipo_run env src dst = Some merged →
     J (processed ++ [b]) (<[b := FsFile merged]> t)) →
  hoare (fun w => dirX64 w = Some ∅ ∧ dirArm64 w = Some ∅)
    (tryBody env x64 arm64 out x64Dir u au cb)
    (fun r w => r = Ok tt → ∃ t, output w = Some (t, path_join x64Dir <$> u) ∧ J cb t).
Proof.
  intros Hnd Hinit Hdir Hfile HIJ Hlipo. unfold tryBody.
  eapply hoare_bind; [apply extractAll_X64_tree| |done].
  intros []. eapply hoare_bind with
    (Q := fun r w => r = Ok tt → treeState (I []) (extractedTree arm64) w).
  { intros w Hw. specialize (Hw eq_refl).
    pose proof (extractAll_Arm64_tree env arm64 (extractedTree x64) w Hw) as Hpost.
    intros Hr. destruct (Hpost Hr) as [Hx Hy]. split; [eauto|done]. }
  2:{ done. }
  intros []. eapply hoare_bind with
    (Q := fun r w => r = Ok tt → treeState (J []) (extractedTree arm64) w).
  { intros w Hw. specialize (Hw eq_refl).
    pose proof (copyArm64Unique_tree env (extractedTree arm64) arm64 I au [] Hdir Hfile w Hw)
      as Hpost.
    intros Hr. destruct (Hpost Hr) as [(t & Ht & HI) Hb]. split; [|done].
    exists t. split; [done|]. by apply HIJ. }
  2:{ done. }
  intros []. eapply hoare_bind with
    (Q := fun r w => r = Ok tt → treeState (J cb) (extractedTree arm64) w).
  { intros w Hw. specialize (Hw eq_refl).
    by apply (mergeBindings_tree_ix env (extractedTree arm64) J cb [] Hnd Hlipo w). }
  2:{ done. }
  intros []. intros w Hw. specialize (Hw eq_refl).
  by apply (createPackage_tree env (extractedTree arm64) out _ (J cb) w).
Qed.

Lemma NoDup_divergentCommon x64 arm64 : NoDup (divergentCommon x64 arm64).
Proof. unfold divergentCommon, commonPaths. apply NoDup_filter, NoDup_filter, NoDup_fileSet. Qed.

Lemma divergent_nodes x64 arm64 b :
  b ∈ divergentCommon x64 arm64 →
  ∃ cx cy ux uy, headerMap x64 !! b = Some (FileNode cx ux) ∧
                 headerMap arm64 !! b = Some (FileNode cy uy) ∧ cx ≠ cy.
Proof.
  intros [_ Hs]%elem_of_divergentCommon.
  apply sameContent_Some in Hs as (_ & cx & cy & Hx & Hy & Hc).
  unfold extractFile in Hx, Hy.
  destruct (headerMap x64 !! b) as [[cx' ux|]|]; simplify_eq/=.
  destruct (headerMap arm64 !! b) as [[cy' uy|]|]; simplify_eq/=.
  exists cx, cy, ux, uy. split_and!; [done|done|].
  intros ->. symmetry in Hc. apply Z.eqb_neq in Hc. by apply Hc, Buffer_compare_eq.
Qed.

(** The tree packed by a successful run, entry by entry. *)
Lemma merged_tree_contents mm env x64 arm64 out allow w w' :
  mergeASARs mm env x64 arm64 out allow w = (Ok tt, w') →
  ∃ t unpack, output w' = Some (t, unpack) ∧
    (∀ p c u, headerMap x64 !! p = Some (FileNode c u) →
              p ∉ divergentCommon x64 arm64 → t !! p = Some (FsFile c)) ∧
    (∀ q, q ∈ uniqueToB x64 arm64 → t !! q = extractedTree arm64 !! q) ∧
    (∀ b, b ∈ divergentCommon x64 arm64 →
       ∃ cx cy merged, extractFile x64 b = Ok cx ∧ extractFile arm64 b = Ok cy ∧
                       lipo_run env cy cx = Some merged ∧
                       t !! b = Some (FsFile merged)).
Proof.
  intros Hrun. rewrite mergeASARs_unfold in Hrun.
  destruct (validate mm x64 arm64 allow) as [[[u au] cb]|] eqn:Hv; [|done].
  pose proof (validate_Ok _ _ _ _ _ _ _ Hv) as (Hu & -> & -> & _).
  apply stage_Ok in Hrun as (_ & _ & Hbody & Hout).
  set (I := fun (processed : list string) (t : gmap string FsNode) =>
    (∀ p c u, headerMap x64 !! p = Some (FileNode c u) → t !! p = Some (FsFile c)) ∧
    (∀ q, q ∈ processed → q ∈ uniqueToB x64 arm64 ∧ t !! q = extractedTree arm64 !! q)).
  set (J := fun (processed : list string) (t : gmap string FsNode) =>
    (∀ p c u, headerMap x64 !! p = Some (FileNode c u) → p ∉ processed →
              t !! p = Some (FsFile c)) ∧
    (∀ q, q ∈ uniqueToB x64 arm64 → t !! q = extractedTree arm64 !! q) ∧
    (∀ b, b ∈ processed →
       ∃ cx cy merged, extractFile x64 b = Ok cx ∧ extractFile arm64 b = Ok cy ∧
                       lipo_run env cy cx = Some merged ∧
                       t !! b = Some (FsFile merged))).
  assert (∀ q, q ∈ uniqueToB x64 arm64 → is_Some (extractedTree arm64 !! q)) as HsomeB.
  { intros q [[n Hn]%fileSet_lookup _]%elem_of_uniqueToB.
    rewrite lookup_extractedTree, Hn. simpl. eauto. }
  destruct (tryBody_tree_ix env x64 arm64 out (tmpName env X64) u
              (uniqueToB x64 arm64) (divergentCommon x64 arm64) I J
              (NoDup_divergentCommon x64 arm64)) with (w := afterMkdtemps w)
    as (t & Ht & HJ1 & HJ2 & HJ3); try done.
  - split; [|by intros q Hq%elem_of_nil].
    intros p c u' Hp. by rewrite lookup_extractedTree, Hp.
  - intros processed q t t' Hq Hd [H1 H2] Hm. split.
    + intros p c u' Hp. eapply mkdirs_keeps_file; eauto.
    + intros k [Hk| ->%list_elem_of_singleton]%elem_of_app.
      * destruct (H2 k Hk) as [Hku Hkt]. split; [done|].
        destruct (HsomeB k Hku) as [n Hn]. rewrite Hn in *.
        eapply mkdirs_keeps_existing; eauto.
      * split; [done|]. erewrite mkdirs_makes; [|done|set_solver].
        apply isDirectory_lookup in Hd as (m & Hm' & Hk).
        rewrite lookup_extractedTree, Hm'. by destruct m.
  - intros processed q t t1 content Hq Hd [H1 H2] Hm Hsrc Hdst. split.
    + intros p c u' Hp. rewrite lookup_insert_ne.
      * eapply mkdirs_keeps_file; eauto.
      * intros ->. apply elem_of_uniqueToB in Hq as [_ Hq]. apply Hq, fileSet_lookup. eauto.
    + intros k [Hk| ->%list_elem_of_singleton]%elem_of_app.
      * destruct (H2 k Hk) as [Hku Hkt]. split; [done|].
        destruct (decide (q = k)) as [->|Hne]; [by rewrite lookup_insert_eq|].
        rewrite lookup_insert_ne by done.
        destruct (HsomeB k Hku) as [n Hn]. rewrite Hn in *.
        eapply mkdirs_keeps_existing; eauto.
      * split; [done|]. by rewrite lookup_insert_eq.
  - intros t [H1 H2]. split_and!; [by intros p c u' Hp _; eapply H1|by apply H2|].
    by intros b Hb%elem_of_nil.
  - intros processed b t src dst merged Hb Hfresh (H1 & H2 & H3) Hsrc Hdst Hl.
    destruct (divergent_nodes _ _ _ Hb) as (cx & cy & ux & uy & HA & HB & _).
    assert (dst = cx) as ->.
    { rewrite (H1 b cx ux HA Hfresh) in Hdst. by simplify_eq. }
    assert (src = cy) as ->.
    { rewrite lookup_extractedTree, HB in Hsrc. by simplify_eq/=. }
    split_and!.
    + intros p c u' Hp Hnp. rewrite lookup_insert_ne; [apply (H1 p c u' Hp)|]; set_solver.
    + intros q Hq. rewrite lookup_insert_ne; [by apply H2|].
      intros ->. apply elem_of_uniqueToB in Hq as [_ Hq]. apply Hq, fileSet_lookup. eauto.
    + intros k [Hk| ->%list_elem_of_singleton]%elem_of_app.
      * destruct (H3 k Hk) as (cx' & cy' & m & ? & ? & ? & Hkt).
        exists cx', cy', m. split_and!; try done.
        rewrite lookup_insert_ne; [done|]. by intros ->.
      * exists cx, cy, merged. unfold extractFile. rewrite HA, HB, lookup_insert_eq.
        by split_and!.
  - exists t, (path_join (tmpName env X64) <$> u). rewrite Hout. by split_and!.
Qed.



(** X12: a successful run carries over what only the arm64 archive has:
    the archive written holds at the path of such a file a file with the
    arm64 content, and at the path of such a directory a directory. *)
Theorem X12_arm64_unique_entries_carried_over mm env x64 arm64 out allow w w' q :
  mergeASARs mm env x64 arm64 out allow w = (Ok tt, w') →
  q ∈ fileSet arm64 →
  q ∉ fileSet x64 →
  ∃ t unpack, output w' = Some (t, unpack) ∧
    (∀ content, extractFile arm64 q = Ok content → t !! q = Some (FsFile content)) ∧
    (isDirectory arm64 q = Ok true → t !! q = Some FsDir).
Proof.
  intros Hrun Hq Hnq.
  destruct (merged_tree_contents _ _ _ _ _ _ _ _ Hrun) as (t & unpack & Hout & _ & H2 & _).
  exists t, unpack. split; [done|].
  rewrite (H2 q) by (by apply elem_of_uniqueToB). rewrite lookup_extractedTree. split.
  - intros content Hc. unfold extractFile in Hc.
    by destruct (headerMap arm64 !! q) as [[c u|]|]; simplify_eq/=.
  - intros (m & -> & Hk)%isDirectory_lookup. by destruct m.
Qed.

Lemma X12_witness :
  ∃ t unpack,
    output (mergeASARs literalMatch calmEnv sampleX64 sampleArm64 "out.asar"
              (Some "b-only.txt") initialWorld).2 = Some (t, unpack) ∧
    (∀ content, extractFile sampleArm64 "b-only.txt" = Ok content →
                t !! "b-only.txt" = Some (FsFile content)) ∧
    (isDirectory sampleArm64 "b-only.txt" = Ok true → t !! "b-only.txt" = Some FsDir).
Proof.
  apply (X12_arm64_unique_entries_carried_over literalMatch calmEnv sampleX64 sampleArm64
           "out.asar" (Some "b-only.txt") initialWorld _ "b-only.txt").
  - vm_compute. reflexivity.
  - apply (bool_decide_unpack _). vm_compute. exact I.
  - apply (bool_decide_unpack _). vm_compute. exact I.
Defined.



(** ** Merging an archive with a copy of itself *)

Lemma filter_none {A} (P : A → Prop) `{∀ x, Decision (P x)} (l : list A) :
  (∀ x, x ∈ l → ¬ P x) → filter P l = [].
Proof.
  induction l as [|x l IH]; intros Hl; [done|].
  rewrite filter_cons, decide_False by (apply Hl; set_solver).
  apply IH. intros y Hy. apply Hl. set_solver.
Qed.



(** ** The repacker runs last *)

Lemma tryBody_calls env x64 arm64 out x64Dir u au cb w :
  ∃ evs, trace (tryBody env x64 arm64 out x64Dir u au cb w).2 = trace w ++ evs ∧
    (evs = [EvExtractAll (asarPath x64) X64; EvExtractAll (asarPath arm64) Arm64]
             ++ copyCalls arm64 au ++ bindingCalls cb
             ++ [EvCreatePackage out (path_join x64Dir <$> u)]
     ∨ ∀ dest unpack, EvCreatePackage dest unpack ∉ evs).
Proof.
  set (Q := fun e : Event => ∀ dest unpack, e ≠ EvCreatePackage dest unpack).
  assert (∀ evs, Forall Q evs → ∀ dest unpack, EvCreatePackage dest unpack ∉ evs) as HQ.
  { intros evs Hevs dest unpack Hin. rewrite Forall_forall in Hevs.
    by apply (Hevs _ Hin dest unpack). }
  unfold tryBody, mbind, M_bind.
  destruct (extractAll_frame env x64 X64 w) as (Ht & _ & _).
  destruct (extractAll env x64 X64 w) as [[[]|e] w1]; simpl in *.
  2:{ eexists. split; [done|]. right. apply HQ. by repeat constructor. }
  destruct (extractAll_frame env arm64 Arm64 w1) as (Ht1 & _ & _).
  destruct (extractAll env arm64 Arm64 w1) as [[[]|e] w2]; simpl in *.
  2:{ exists [EvExtractAll (asarPath x64) X64; EvExtractAll (asarPath arm64) Arm64].
      split; [by rewrite Ht1, Ht, <- app_assoc|]. right. apply HQ. by repeat constructor. }
  destruct (copyArm64Unique_frame env arm64 au w2) as (_ & _ & Ht2).
  pose proof (copyArm64Unique_traced env (trace w2) Q arm64 au) as Hc.
  destruct (copyArm64Unique env arm64 au w2) as [[[]|e] w3] eqn:E2; simpl in *.
  2:{ destruct (Hc) with (w := w2) as (evs & Hevs & HF).
      { intros e' (f & _ & [->|[->| ->]]); by intros ??. }
      { apply since_start. }
      rewrite E2 in Hevs. simpl in Hevs.
      exists ([EvExtractAll (asarPath x64) X64; EvExtractAll (asarPath arm64) Arm64] ++ evs).
      split; [by rewrite Hevs, Ht1, Ht, <- !app_assoc|]. right. apply HQ.
      apply Forall_app. split; [by repeat constructor|done]. }
  specialize (Ht2 eq_refl).
  destruct (mergeBindings_frame env cb w3) as (_ & _ & Ht3).
  pose proof (mergeBindings_traced env (trace w3) Q cb) as Hb.
  destruct (mergeBindings env cb w3) as [[[]|e] w4] eqn:E3; simpl in *.
  2:{ destruct (Hb) with (w := w3) as (evs & Hevs & HF).
      { intros e' (f & _ & [->|[->| ->]]); by intros ??. }
      { apply since_start. }
      rewrite E3 in Hevs. simpl in Hevs.
      exists ([EvExtractAll (asarPath x64) X64; EvExtractAll (asarPath arm64) Arm64]
              ++ copyCalls arm64 au ++ evs).
      split; [by rewrite Hevs, Ht2, Ht1, Ht, <- !app_assoc|]. right. apply HQ.
      apply Forall_app. split; [by repeat constructor|].
      apply Forall_app. split; [|done].
      destruct (Hc) with (w := w2) as (evs' & Hevs' & HF').
      { intros e' (f & _ & [->|[->| ->]]); by intros ??. }
      { apply since_start. }
      rewrite E2 in Hevs'. simpl in Hevs'. rewrite Ht2 in Hevs'.
      by apply app_inv_head in Hevs' as ->. }
  specialize (Ht3 eq_refl).
  destruct (createPackage_frame env out (path_join x64Dir <$> u) w4) as (Ht4 & _).
  eexists. split; [|by left].
  rewrite Ht4, Ht3, Ht2, Ht1, Ht. repeat (rewrite <- app_assoc; simpl). done.
Qed.

(** X15: the repacker is only ever called on a fully merged tree.  In
    every run, when [createPackageWithOptions] is called at all, the calls
    of the run are the two [mkdtemp], the two [extractAll], all the [mkdirp]
    and [copy] calls for the paths unique to the arm64 archive, all the
    [realpath] and [lipo] calls for the divergent common files, that one
    call of the repacker, and the two removals. *)
Theorem X15_repacker_called_after_all_merges mm env x64 arm64 out allow w dest unpack evs :
  trace (mergeASARs mm env x64 arm64 out allow w).2 = trace w ++ evs →
  EvCreatePackage dest unpack ∈ evs →
  evs = [EvMkdtemp X64; EvMkdtemp Arm64;
         EvExtractAll (asarPath x64) X64; EvExtractAll (asarPath arm64) Arm64]
        ++ copyCalls arm64 (uniqueToB x64 arm64)
        ++ bindingCalls (divergentCommon x64 arm64)
        ++ [EvCreatePackage dest unpack; EvRemove X64; EvRemove Arm64].
Proof.
  intros Htr Hin. rewrite mergeASARs_unfold in Htr.
  destruct (validate mm x64 arm64 allow) as [[[u au] cb]|e0] eqn:Hv.
  2:{ simpl in Htr. rewrite <- (app_nil_r (trace w)) in Htr at 1.
      apply app_inv_head in Htr as <-. by apply elem_of_nil in Hin. }
  pose proof (validate_Ok _ _ _ _ _ _ _ Hv) as (_ & -> & -> & _).
  destruct (mkdtemp_fails env X64) eqn:H1.
  { unfold stage, mbind, M_bind, mkdtemp in Htr. rewrite H1 in Htr. simpl in Htr.
    apply app_inv_head in Htr as <-. set_solver. }
  destruct (mkdtemp_fails env Arm64) eqn:H2.
  { unfold stage, mbind, M_bind, mkdtemp in Htr. rewrite H1 in Htr. simpl in Htr.
    rewrite H2 in Htr. simpl in Htr. rewrite <- app_assoc in Htr.
    apply app_inv_head in Htr as <-. set_solver. }
  rewrite stage_unfold in Htr by done. unfold try_finally in Htr.
  destruct (tryBody_calls env x64 arm64 out (tmpName env X64) u (uniqueToB x64 arm64)
              (divergentCommon x64 arm64) (afterMkdtemps w)) as (bevs & Hb & Hcase).
  destruct (tryBody _ _ _ _ _ _ _ _ _) as [rb wb]. rewrite cleanup_spec in Htr.
  simpl in Hb.
  assert (evs = [EvMkdtemp X64; EvMkdtemp Arm64] ++ bevs ++ [EvRemove X64; EvRemove Arm64])
    as ->.
  { apply (app_inv_head (trace w)). rewrite <- Htr.
    destruct (remove_fails env X64), (remove_fails env Arm64); simpl;
      rewrite Hb; repeat (rewrite <- app_assoc; simpl); done. }
  destruct Hcase as [->|Hnone].
  - assert (EvCreatePackage dest unpack
            = EvCreatePackage out (path_join (tmpName env X64) <$> u)) as ->.
    { assert (∀ e, copyEvent (uniqueToB x64 arm64) e → e ≠ EvCreatePackage dest unpack) as H3
        by (intros e (f & _ & [->|[->| ->]]); done).
      assert (∀ l, (∀ e, e ∈ copyCalls arm64 l → ∃ f, e = EvMkdirp f ∨ e = EvCopy f)) as Hcc.
      { intros l e. unfold copyCalls. rewrite list_elem_of_bind.
        intros (f & He & _). destruct (isDirectory arm64 f) as [[|]|]; set_solver. }
      assert (∀ l, (∀ e, e ∈ bindingCalls l → ∃ s f g, e = EvRealpath s f ∨ e = EvLipo f g))
        as Hbc.
      { intros l e. unfold bindingCalls. rewrite list_elem_of_bind.
        intros (f & He & _). rewrite !elem_of_cons in He.
        destruct He as [->|[->|[->|He]]]; [by eexists _, _, f; left..| |].
        - exists X64, f, f. by right.
        - by apply elem_of_nil in He. }
      clear -Hin Hcc Hbc.
      rewrite !elem_of_app, !elem_of_cons, !elem_of_nil in Hin.
      destruct_or! Hin;
        first [ done | discriminate
              | by destruct (Hcc _ _ Hin) as (f & [?|?])
              | by destruct (Hbc _ _ Hin) as (s & f & g & [?|?]) ]. }
    repeat (rewrite <- app_assoc; simpl). done.
  - exfalso. clear -Hin Hnone.
    rewrite !elem_of_app, !elem_of_cons, !elem_of_nil in Hin.
    destruct_or! Hin; first [ done | discriminate | by apply (Hnone dest unpack) ].
Qed.

Lemma X15_witness :
  [EvMkdtemp X64; EvMkdtemp Arm64;
   EvExtractAll (asarPath mixedX64) X64; EvExtractAll (asarPath mixedArm64) Arm64;
   EvRealpath Arm64 "bin/native"; EvRealpath X64 "bin/native";
   EvLipo "bin/native" "bin/native";
   EvCreatePackage "out.asar" []; EvRemove X64; EvRemove Arm64]
  = [EvMkdtemp X64; EvMkdtemp Arm64;
     EvExtractAll (asarPath mixedX64) X64; EvExtractAll (asarPath mixedArm64) Arm64]
    ++ copyCalls mixedArm64 (uniqueToB mixedX64 mixedArm64)
    ++ bindingCalls (divergentCommon mixedX64 mixedArm64)
    ++ [EvCreatePackage "out.asar" []; EvRemove X64; EvRemove Arm64].
Proof.
  apply (X15_repacker_called_after_all_merges literalMatch calmEnv mixedX64 mixedArm64
           "out.asar" None initialWorld "out.asar" []).
  - vm_compute. reflexivity.
  - apply (bool_decide_unpack _). vm_compute. exact I.
Defined.
